(** * Video grounding: reward scoring and ground-truth derivation

    A shallow embedding of
    - [verl/utils/reward_score/video_grounding.py] (module [RewardScore]):
      [video_grounding], [check_format], [evaluate_grounding],
      [evaluate_sampling_rate];
    - [video_grounding/dataset_prep.py] (module [DatasetPrep]):
      [compute_layer_segment];
    together with the Python built-ins they call (module [Py]).

    Conventions of the embedding.
    - A Python [str] is a list of characters.  Characters are the 256 code
      points of Latin-1 ([ascii]); every character the two regular
      expressions and [split] treat specially lies there, and [strip] and
      [int] are modelled on these code points.
    - A Python [int] is a [Z].
    - A Python [float] is the exact rational it would hold without rounding:
      binary64 rounding, and saturation to an infinity, are not part of the
      model.  The range of binary64 is kept wherever CPython turns it into an
      exception: converting an [int] of magnitude [2^1024 - 2^970] or more
      to [float] raises [OverflowError], so does a true division of two
      ints with such a quotient, and dividing by a float that binary64
      stores as zero (magnitude at most [2^-1075]) raises
      [ZeroDivisionError].
    - Code that can raise lives in the [result] monad; [try ... except] is
      [try_except]. *)

From Stdlib Require Import ZArith QArith Qminmax Qabs Qpower Lia Lqa.
From Stdlib Require Import List Ascii String DecimalString Bool.
Import ListNotations.

Set Implicit Arguments.

(* ================================================================== *)
(** * Python built-ins *)

Module Py.

(** ** Exceptions *)

Inductive exn : Set :=
| ValueError
| IndexError
| ZeroDivisionError
| OverflowError.

Inductive result (A : Type) : Type :=
| Ok (a : A)
| Raise (e : exn).

Arguments Ok {A} a.
Arguments Raise {A} e.

Definition bind {A B : Type} (m : result A) (k : A -> result B) : result B :=
  match m with
  | Ok a => k a
  | Raise e => Raise e
  end.

(** [try: body except handled: handler]; an exception outside [handled]
    propagates. *)
Definition try_except {A : Type} (body : result A) (handled : exn -> bool)
    (handler : result A) : result A :=
  match body with
  | Ok a => Ok a
  | Raise e => if handled e then handler else Raise e
  end.

(** [for x in xs: body], threading the loop's variables as a state. *)
Fixpoint for_each {A S : Type} (xs : list A) (body : A -> S -> result S)
    (s : S) : result S :=
  match xs with
  | [] => Ok s
  | x :: xs' => bind (body x s) (for_each xs' body)
  end.

(** [range(n)] *)
Definition range (n : Z) : list Z := map Z.of_nat (seq 0 (Z.to_nat n)).

(** ** Strings *)

Definition str : Set := list ascii.

Definition lit (s : string) : str := list_ascii_of_string s.

Definition len (s : str) : Z := Z.of_nat (List.length s).

(** [s.startswith(p)] *)
Fixpoint starts_with (p s : str) : bool :=
  match p, s with
  | [], _ => true
  | _ :: _, [] => false
  | a :: p', b :: s' => Ascii.eqb a b && starts_with p' s'
  end.

(** [p in s] *)
Fixpoint contains (p s : str) : bool :=
  starts_with p s ||
  match s with
  | [] => false
  | _ :: s' => contains p s'
  end.

(** The text before the first occurrence of [p] in [s] and the text after
    it; [None] when [p] does not occur. *)
Fixpoint cut (p s : str) : option (str * str) :=
  if starts_with p s then Some ([], skipn (List.length p) s)
  else match s with
       | [] => None
       | c :: s' =>
           match cut p s' with
           | Some (before, after) => Some (c :: before, after)
           | None => None
           end
       end.

(** Whitespace as [str.strip()] sees it (the Latin-1 part of
    [Py_UNICODE_ISSPACE]): U+0009..U+000D, U+001C..U+0020, U+0085, U+00A0. *)
Definition is_space (c : ascii) : bool :=
  let n := N_of_ascii c in
  ((9 <=? n) && (n <=? 13) || (28 <=? n) && (n <=? 32) ||
   (n =? 133) || (n =? 160))%N.

Fixpoint drop_while (f : ascii -> bool) (s : str) : str :=
  match s with
  | [] => []
  | c :: s' => if f c then drop_while f s' else s
  end.

(** Removes the characters satisfying [f] from both ends. *)
Definition trim (f : ascii -> bool) (s : str) : str :=
  rev (drop_while f (rev (drop_while f s))).

(** [s.strip()] *)
Definition strip (s : str) : str := trim is_space s.

(** [s.split(sep)] for a one-character separator: never empty. *)
Fixpoint split (sep : ascii) (s : str) : list str :=
  match s with
  | [] => [[]]
  | c :: s' =>
      if Ascii.eqb c sep then [] :: split sep s'
      else match split sep s' with
           | [] => [[c]]
           | w :: ws => (c :: w) :: ws
           end
  end.

(** [xs[i]] for [i >= 0] *)
Definition index {A : Type} (xs : list A) (i : nat) : result A :=
  match nth_error xs i with
  | Some x => Ok x
  | None => Raise IndexError
  end.

(** ** [int(s)] *)

Definition digit_of (c : ascii) : option Z :=
  let n := N_of_ascii c in
  if ((48 <=? n) && (n <=? 57))%N then Some (Z.of_N n - 48)%Z else None.

(** Digits with single underscores between them; the value read and the
    number of digits. *)
Fixpoint int_digits (s : str) (acc : Z) (count : nat) : option (Z * nat) :=
  match s with
  | [] => None
  | c :: s' =>
      match digit_of c with
      | None => None
      | Some d =>
          let acc' := (10 * acc + d)%Z in
          match s' with
          | [] => Some (acc', S count)
          | u :: s'' =>
              if Ascii.eqb u "_" then int_digits s'' acc' (S count)
              else int_digits s' acc' (S count)
          end
      end
  end.

(** CPython's default limit on the digits of a decimal string
    ([sys.int_info.default_max_str_digits]). *)
Definition int_max_str_digits : nat := 4300.

(** Whitespace as [int()] skips it: the ASCII characters of C's [isspace]
    and the non-ASCII spaces, but not U+001C..U+001F. *)
Definition is_int_space (c : ascii) : bool :=
  let n := N_of_ascii c in
  ((9 <=? n) && (n <=? 13) || (n =? 32) || (n =? 133) || (n =? 160))%N.

(** [int(s)]: surrounding whitespace, an optional sign, decimal digits. *)
Definition int (s : str) : result Z :=
  let body := trim is_int_space s in
  let (negative, digits) :=
    match body with
    | c :: rest =>
        if Ascii.eqb c "-" then (true, rest)
        else if Ascii.eqb c "+" then (false, rest)
        else (false, body)
    | [] => (false, body)
    end in
  match int_digits digits 0 0 with
  | Some (v, count) =>
      if (count <=? int_max_str_digits)%nat
      then Ok (if negative then (- v)%Z else v)
      else Raise ValueError
  | None => Raise ValueError
  end.

(** [str(n)] and [f"{n}"] for an int: its decimal digits, [-] first when
    negative. *)
Definition str_of_int (n : Z) : str :=
  lit (NilZero.string_of_int (Z.to_int n)).

(** ** Numbers *)

(** A number is an [int] or a [float]; arithmetic between the two converts
    the [int]. *)
Inductive num : Set :=
| Int (z : Z)
| Float (q : Q).

Definition value (n : num) : Q :=
  match n with
  | Int z => inject_Z z
  | Float q => q
  end.

Definition Qltb (x y : Q) : bool := negb (Qle_bool y x).

(** The least magnitude that rounds beyond the largest double. *)
Definition float_overflow : Z := 2 ^ 1024 - 2 ^ 970.

(** The largest magnitude that rounds to [0.0]: [2^-1075]. *)
Definition float_tiny : Q := 1 # (2 ^ 1075).

Definition stored_as_zero (q : Q) : bool := Qle_bool (Qabs q) float_tiny.

(** Conversion of an operand to [float]:
    [OverflowError: int too large to convert to float]. *)
Definition float_of (n : num) : result Q :=
  match n with
  | Int z =>
      if (float_overflow <=? Z.abs z)%Z then Raise OverflowError
      else Ok (inject_Z z)
  | Float q => Ok q
  end.

Notation "x <- m ;; k" := (bind m (fun x => k))
  (at level 61, m at next level, right associativity).

(** [a - b] *)
Definition num_sub (a b : num) : result num :=
  match a, b with
  | Int x, Int y => Ok (Int (x - y))
  | _, _ => x <- float_of a ;; y <- float_of b ;; Ok (Float (x - y))
  end.

(** [a * b] *)
Definition num_mul (a b : num) : result num :=
  match a, b with
  | Int x, Int y => Ok (Int (x * y))
  | _, _ => x <- float_of a ;; y <- float_of b ;; Ok (Float (x * y))
  end.

(** [a / b]: always a float.  Two ints are divided exactly and the quotient
    rounded once ([OverflowError: integer division result too large for a
    float]); otherwise both operands are converted first. *)
Definition num_truediv (a b : num) : result num :=
  match a, b with
  | Int x, Int y =>
      if (y =? 0)%Z then Raise ZeroDivisionError
      else if (float_overflow * Z.abs y <=? Z.abs x)%Z then Raise OverflowError
      else Ok (Float (inject_Z x / inject_Z y))
  | _, _ =>
      x <- float_of a ;;
      y <- float_of b ;;
      if stored_as_zero y then Raise ZeroDivisionError
      else Ok (Float (x / y))
  end.

(** [a < b]: ints and floats compare by exact value. *)
Definition num_lt (a b : num) : bool := Qltb (value a) (value b).

(** [min(a, b)] keeps [a] unless [b < a]; [max(a, b)] keeps [a] unless
    [b > a]. *)
Definition min2 (a b : num) : num := if num_lt b a then b else a.
Definition max2 (a b : num) : num := if num_lt a b then b else a.

(** [2 ** e]: an [int] for [e >= 0], a [float] for [e < 0]. *)
Definition pow2 (e : Z) : num :=
  if (0 <=? e)%Z then Int (2 ^ e) else Float (2 ^ e)%Q.

End Py.

(* ================================================================== *)
(** * verl/utils/reward_score/video_grounding.py *)

Module RewardScore.
Import Py.

(** ** The two regular expressions *)

Definition think_open : str := lit "<think>".
Definition think_close : str := lit "</think>".
Definition grounding_open : str := lit "<grounding>".
Definition grounding_close : str := lit "</grounding>".

Fixpoint take_while (f : ascii -> bool) (s : str) : str :=
  match s with
  | [] => []
  | c :: s' => if f c then c :: take_while f s' else []
  end.

Definition not_lt (c : ascii) : bool := negb (Ascii.eqb c "<").

(** [re.match(r'<grounding>([^<]+)</grounding>', s)]: group 1 of a match
    that starts at the first character of [s].  The greedy [[^<]+] takes the
    whole run of characters other than [<]; a shorter run would be followed
    by a character that is not the [<] of the closing tag. *)
Definition match_grounding (s : str) : option str :=
  if starts_with grounding_open s then
    let rest := skipn (List.length grounding_open) s in
    let content := take_while not_lt rest in
    match content with
    | [] => None
    | _ :: _ =>
        if starts_with grounding_close (skipn (List.length content) rest)
        then Some content
        else None
    end
  else None.

(** [re.search(r'<grounding>([^<]+)</grounding>', s)]: group 1 of the
    leftmost match. *)
Fixpoint search_grounding (s : str) : option str :=
  match match_grounding s with
  | Some content => Some content
  | None =>
      match s with
      | [] => None
      | _ :: s' => search_grounding s'
      end
  end.

(** [re.search(r'<think>(.*?)</think>', s, re.DOTALL)]: group 1 of the
    leftmost match, which starts at the first [<think>]; the lazy [.*?] stops
    at the first [</think>] after it. *)
Definition search_think (s : str) : option str :=
  match cut think_open s with
  | Some (_, rest) =>
      match cut think_close rest with
      | Some (content, _) => Some content
      | None => None
      end
  | None => None
  end.

(** ** check_format *)

Definition check_format (response_str : str) : Q :=
  let has_thinking :=
    contains think_open response_str && contains think_close response_str in
  let has_grounding :=
    contains grounding_open response_str &&
    contains grounding_close response_str in
  let thinking_quality :=
    match search_think response_str with
    | Some group1 =>
        let thinking_content := strip group1 in
        (* a length is below 2^63: this true division cannot overflow *)
        Qmin 1 (inject_Z (len thinking_content) / 200)
    | None => 0
    end in
  if has_thinking && has_grounding then 0.6 + 0.4 * thinking_quality
  else if has_thinking then 0.3
  else if has_grounding then 0.5
  else 0.

(** ** evaluate_grounding *)

Definition value_or_index_error (e : exn) : bool :=
  match e with
  | ValueError | IndexError => true
  | _ => false
  end.

Definition evaluate_grounding (pred_parts gt_parts : list str) : result Q :=
  try_except
    (p0 <- index pred_parts 0 ;; pred_layer <- int p0 ;;
     p1 <- index pred_parts 1 ;; pred_segment <- int p1 ;;
     g0 <- index gt_parts 0 ;; gt_layer <- int g0 ;;
     g1 <- index gt_parts 1 ;; gt_segment <- int g1 ;;
     if (pred_layer =? gt_layer)%Z && (pred_segment =? gt_segment)%Z then
       Ok 1
     else if (pred_layer =? gt_layer)%Z then
       let num_segments := pow2 gt_layer in
       let direct := Int (Z.abs (pred_segment - gt_segment)) in
       wrap_around <- num_sub num_segments direct ;;
       let segment_distance := min2 direct wrap_around in
       half <- num_truediv num_segments (Int 2) ;;
       ratio <- num_truediv segment_distance half ;;
       rest <- num_sub (Int 1) ratio ;;
       let segment_score := max2 (Int 0) rest in
       score <- num_mul (Float 0.8) segment_score ;;
       Ok (value score)
     else
       let layer_diff := Int (Z.abs (pred_layer - gt_layer)) in
       ratio <- num_truediv layer_diff (Int 4) ;;
       rest <- num_sub (Int 1) ratio ;;
       let layer_score := max2 (Int 0) rest in
       score <- num_mul (Float 0.4) layer_score ;;
       Ok (value score))
    value_or_index_error
    (Ok 0).

(** ** evaluate_sampling_rate *)

Definition value_error (e : exn) : bool :=
  match e with
  | ValueError => true
  | _ => false
  end.

Definition evaluate_sampling_rate (sampling_rate_str : str) : result Q :=
  try_except
    (rate <- int sampling_rate_str ;;
     if (rate <=? 0)%Z then Ok 0
     else if (rate <=? 5)%Z then Ok 1
     else if (rate <=? 10)%Z then Ok 0.8
     else if (rate <=? 30)%Z then Ok 0.5
     else Ok 0.2)
    value_error
    (Ok 0).

(** ** video_grounding *)

Definition any_exception (e : exn) : bool := true.

Definition video_grounding (predict_str ground_truth : str) : result Q :=
  let format_score := check_format predict_str in
  if Qeq_bool format_score 0 then Ok 0
  else
    let pred_match := search_grounding predict_str in
    let gt_match := search_grounding ground_truth in
    match pred_match, gt_match with
    | Some pred_group1, Some gt_group1 =>
        try_except
          (let pred_parts := map strip (split "," pred_group1) in
           let gt_parts := map strip (split "," gt_group1) in
           if negb (List.length pred_parts =? 3)%nat ||
              negb (List.length gt_parts =? 3)%nat
           then Ok (0.2 * format_score)
           else
             grounding_score <- evaluate_grounding pred_parts gt_parts ;;
             p2 <- index pred_parts 2 ;;
             sampling_score <- evaluate_sampling_rate p2 ;;
             let final_score :=
               0.3 * format_score + 0.5 * grounding_score
               + 0.2 * sampling_score in
             Ok final_score)
          any_exception
          (Ok (0.1 * format_score))
    | _, _ => Ok (0.1 * format_score)
    end.

End RewardScore.

(* ================================================================== *)
(** * video_grounding/dataset_prep.py *)

Module DatasetPrep.
Import Py.

(** ** parse_time_reference *)

Definition value_error (e : exn) : bool :=
  match e with
  | ValueError => true
  | _ => false
  end.

(** [x, y = map(int, fields)]: the fields are converted one by one as the
    unpacking asks for them; fewer or more than two is a [ValueError] too. *)
Definition unpack_two_ints (fields : list str) : result (Z * Z) :=
  match fields with
  | [] => Raise ValueError
  | a :: rest =>
      x <- int a ;;
      match rest with
      | [] => Raise ValueError
      | b :: rest' =>
          y <- int b ;;
          match rest' with
          | [] => Ok (x, y)
          | c :: _ => extra <- int c ;; Raise ValueError
          end
      end
  end.

Definition parse_time_reference (time_ref : str) : result (Z * Z) :=
  match time_ref with
  | [] => Ok (0, 0)%Z
  | _ :: _ =>
      if negb (contains (lit "-") time_ref) then Ok (0, 0)%Z
      else
        let parts := split "-" time_ref in
        match parts with
        | [start; end_] =>
            try_except
              (starts <- unpack_two_ints (split ":" start) ;;
               let '(start_min, start_sec) := starts in
               ends <- unpack_two_ints (split ":" end_) ;;
               let '(end_min, end_sec) := ends in
               let start_time := (start_min * 60 + start_sec)%Z in
               let end_time := (end_min * 60 + end_sec)%Z in
               Ok (start_time, end_time))
              value_error
              (Ok (0, 0)%Z)
        | _ => Ok (0, 0)%Z
        end
  end.

(** ** compute_layer_segment *)

(** The times and the duration are taken as exact reals (rationals), as the
    statements about this function quantify over them; a divisor is zero
    only when it is exactly zero. *)

(** The loop variables of [compute_layer_segment]. *)
Record best : Set := Best {
  best_layer : Z;
  best_segment : Z;
  best_iou : Q
}.

(** [a / b] on floats *)
Definition truediv (a b : Q) : result Q :=
  if Qeq_bool b 0 then Raise ZeroDivisionError else Ok (a / b).

(** The bounds of a candidate segment and of its overlap with the input
    interval. *)
Definition segment_start_of (segment_id : Z) (segment_duration : Q) : Q :=
  inject_Z segment_id * segment_duration.

Definition segment_end_of (segment_id : Z) (segment_duration : Q) : Q :=
  inject_Z (segment_id + 1) * segment_duration.

Definition intersection_start_of (start_time segment_start : Q) : Q :=
  Qmax start_time segment_start.

Definition intersection_end_of (end_time segment_end : Q) : Q :=
  Qmin end_time segment_end.

Definition union_of (start_time end_time segment_start segment_end : Q) : Q :=
  Qmax end_time segment_end - Qmin start_time segment_start.

(** The body of the inner loop: one candidate segment. *)
Definition visit_segment (start_time end_time segment_duration : Q)
    (layer segment_id : Z) (b : best) : result best :=
  let segment_start := segment_start_of segment_id segment_duration in
  let segment_end := segment_end_of segment_id segment_duration in
  let intersection_start := intersection_start_of start_time segment_start in
  let intersection_end := intersection_end_of end_time segment_end in
  if Qltb intersection_start intersection_end then
    let intersection := intersection_end - intersection_start in
    let union := union_of start_time end_time segment_start segment_end in
    iou <- truediv intersection union ;;
    (* Prefer more granular layers if IoU is at least 0.7 *)
    if Qltb (best_iou b) iou ||
       (Qle_bool 0.7 iou && (best_layer b <? layer)%Z)
    then Ok (Best layer segment_id iou)
    else Ok b
  else Ok b.

(** The body of the outer loop: one layer. *)
Definition visit_layer (start_time end_time video_duration_sec : Q)
    (layer : Z) (b : best) : result best :=
  let num_segments := (2 ^ layer)%Z in
  segment_duration <- truediv video_duration_sec (inject_Z num_segments) ;;
  for_each (range num_segments)
    (visit_segment start_time end_time segment_duration layer) b.

Definition compute_layer_segment (start_time end_time video_duration_min : Q)
    : result (Z * Z) :=
  let video_duration_sec := video_duration_min * 60 in
  let max_layer := 4%Z in
  b <- for_each (range (max_layer + 1))
         (visit_layer start_time end_time video_duration_sec)
         (Best 0 0 0) ;;
  Ok (best_layer b, best_segment b).

(** ** generate_video_grounding_data: the annotation string *)

(** [f"<grounding>{layer}, {segment_id}, 0</grounding>"] *)
Definition ground_truth_of (layer segment_id : Z) : str :=
  lit "<grounding>" ++ str_of_int layer ++ lit ", "
  ++ str_of_int segment_id ++ lit ", 0</grounding>".

End DatasetPrep.

(* ================================================================== *)
(** * The resolver as the specification words it *)

Module ResolverSpec.
Import Py.

(** Modelled on the specification's wording (its sections 3, 4.1 and 4.2),
    to be compared with [DatasetPrep.compute_layer_segment]: every layer
    0..4 ascending, every segment 0..2^layer-1 ascending, the IoU of the
    interval against each candidate, and a best-so-far replaced on a strictly
    greater IoU or on an IoU of at least 0.7 at a strictly greater layer. *)

Definition layers : list Z := [0; 1; 2; 3; 4]%Z.

Definition segment_count (layer : Z) : Z := 2 ^ layer.

Definition segments (layer : Z) : list Z :=
  map Z.of_nat (seq 0 (Z.to_nat (segment_count layer))).

Definition candidates : list (Z * Z) :=
  flat_map (fun layer => map (pair layer) (segments layer)) layers.

Definition segment_width (layer : Z) (duration : Q) : Q :=
  duration / inject_Z (segment_count layer).

Definition segment_bounds (layer segment_id : Z) (duration : Q) : Q * Q :=
  (inject_Z segment_id * segment_width layer duration,
   inject_Z (segment_id + 1) * segment_width layer duration).

Definition iou (start_time end_time seg_start seg_end : Q) : Q :=
  let intersection :=
    Qmax 0 (Qmin end_time seg_end - Qmax start_time seg_start) in
  let union := Qmax end_time seg_end - Qmin start_time seg_start in
  if Qeq_bool intersection 0 then 0 else intersection / union.

(** The best-so-far (layer, segment, iou). *)
Definition best_so_far : Type := (Z * Z * Q)%type.

Definition replaces (layer : Z) (candidate_iou : Q) (b : best_so_far) : bool :=
  let '(best_layer, _, best_iou) := b in
  Qltb best_iou candidate_iou ||
  (Qle_bool 0.7 candidate_iou && (best_layer <? layer)%Z).

Definition consider (start_time end_time duration : Q) (b : best_so_far)
    (candidate : Z * Z) : best_so_far :=
  let '(layer, segment_id) := candidate in
  let '(seg_start, seg_end) := segment_bounds layer segment_id duration in
  let candidate_iou := iou start_time end_time seg_start seg_end in
  if replaces layer candidate_iou b then (layer, segment_id, candidate_iou)
  else b.


End ResolverSpec.

(* ================================================================== *)
(** * Vocabulary of the statements *)

Import Py RewardScore DatasetPrep.

(** [p] occurs in [s]. *)
Definition occurs (p s : str) : Prop := exists a b, s = a ++ p ++ b.

(** An operand that converts to [float] without overflow. *)
Definition fits (n : num) : Prop :=
  match n with
  | Int z => (Z.abs z < float_overflow)%Z
  | Float _ => True
  end.


(** [content] is one or more characters other than [<]. *)
Definition grounding_content (content : str) : Prop :=
  content <> [] /\ ~ In "<"%char content.

(** Some substring of [s] matches [<grounding>([^<]+)</grounding>] with
    [content] as group 1. *)
Definition matches_grounding (s content : str) : Prop :=
  grounding_content content /\
  exists a b, s = a ++ grounding_open ++ content ++ grounding_close ++ b.

(** The loop variables of the code against the specification's
    best-so-far; the best IoU is never negative. *)
Definition tracks (b : best) (t : ResolverSpec.best_so_far) : Prop :=
  t = (best_layer b, best_segment b, best_iou b) /\ 0 <= best_iou b.

(** A candidate overlaps the interval: [intersection_end > intersection_start]
    for segment [segment_id] of [layer]. *)
Definition overlaps (start_time end_time video_duration_min : Q)
    (layer segment_id : Z) : Prop :=
  let segment_duration := video_duration_min * 60 / inject_Z (2 ^ layer) in
  intersection_start_of start_time (segment_start_of segment_id segment_duration)
  < intersection_end_of end_time (segment_end_of segment_id segment_duration).

(** The number of occurrences of a character. *)
Definition count (c : ascii) (s : str) : nat := count_occ ascii_dec s c.

(** A text that contains neither [-] nor [:]. *)
Definition plain_field (s : str) : Prop :=
  ~ In "-"%char s /\ ~ In ":"%char s.

(** A layer of the hierarchy and a segment of that layer. *)
Definition valid_pair (layer segment_id : Z) : Prop :=
  (0 <= layer <= 4)%Z /\ (0 <= segment_id < 2 ^ layer)%Z.

(** Two best-so-far triples that name the same candidate with equal IoU. *)
Definition same_choice (t t' : ResolverSpec.best_so_far) : Prop :=
  fst (fst t) = fst (fst t') /\ snd (fst t) = snd (fst t') /\
  snd t == snd t'.

(** Layer and segment fields as the hierarchy has them: layers from 0 up,
    and, where the two layers agree, both segments inside that layer. *)
Definition valid_fields (pl ps gl gs : Z) : Prop :=
  (0 <= pl <= 1023)%Z /\ (0 <= gl <= 1023)%Z /\
  (pl = gl -> (0 <= ps < 2 ^ gl)%Z /\ (0 <= gs < 2 ^ gl)%Z).

(** The layer and the segment read from the first two fields, when both
    are there and both are integers. *)
Definition two_ints (parts : list str) : option (Z * Z) :=
  match parts with
  | a :: b :: _ =>
      match int a, int b with
      | Ok x, Ok y => Some (x, y)
      | _, _ => None
      end
  | _ => None
  end.

(* ================================================================== *)
(** * Properties *)

(** ** Comparisons on rationals *)

Lemma Qltb_lt (x y : Q) : Qltb x y = true <-> x < y.
Proof.
  unfold Qltb. rewrite negb_true_iff. split; intro H.
  - apply Qnot_le_lt. intro L. apply Qle_bool_iff in L. congruence.
  - destruct (Qle_bool y x) eqn:E; [|reflexivity].
    apply Qle_bool_iff in E. exfalso. exact (Qlt_not_le _ _ H E).
Qed.

Lemma Qltb_ge (x y : Q) : Qltb x y = false <-> y <= x.
Proof.
  unfold Qltb. rewrite negb_false_iff. apply Qle_bool_iff.
Qed.

Lemma Qle_bool_gt (x y : Q) : Qle_bool x y = false <-> y < x.
Proof.
  rewrite <- Qltb_lt. unfold Qltb.
  destruct (Qle_bool x y); simpl; split; congruence.
Qed.

Lemma Qmax_pos (x : Q) : 0 < x -> Qmax 0 x = x.
Proof.
  intro H. unfold Qmax, GenericMinMax.gmax.
  destruct (Qcompare_spec 0 x) as [E|E|E]; try reflexivity.
  - rewrite E in H. now apply Qlt_irrefl in H.
  - exfalso. exact (Qlt_irrefl _ (Qlt_trans _ _ _ H E)).
Qed.

Lemma Qmax_nonpos (x : Q) : x <= 0 -> Qmax 0 x = 0.
Proof.
  intro H. unfold Qmax, GenericMinMax.gmax.
  destruct (Qcompare_spec 0 x) as [E|E|E]; try reflexivity.
  exfalso. exact (Qlt_not_le _ _ E H).
Qed.

(** ** Substrings *)

Lemma starts_with_prefix (p s : str) :
  starts_with p s = true <-> exists b, s = p ++ b.
Proof.
  revert s. induction p as [|c p IH]; intros s; simpl.
  - split; eauto.
  - destruct s as [|d s].
    + split; [discriminate | intros [b Hb]; discriminate].
    + rewrite andb_true_iff, Ascii.eqb_eq, IH. split.
      * intros [-> [b ->]]. now exists b.
      * intros [b Hb]. injection Hb as -> ->. eauto.
Qed.

Lemma starts_with_skipn (p s : str) :
  starts_with p s = true -> s = p ++ skipn (List.length p) s.
Proof.
  intro H. apply starts_with_prefix in H as [b ->].
  now rewrite skipn_app, skipn_all, Nat.sub_diag.
Qed.

Lemma contains_occurs (p s : str) : contains p s = true <-> occurs p s.
Proof.
  unfold occurs. induction s as [|c s IH].
  - simpl. rewrite orb_false_r, starts_with_prefix. split.
    + intros [b Hb]. now exists [], b.
    + intros [a [b Hb]]. destruct a; [now exists b | discriminate].
  - change (contains p (c :: s))
      with (starts_with p (c :: s) || contains p s).
    rewrite orb_true_iff, starts_with_prefix, IH. split.
    + intros [[b Hb] | [a [b Hb]]].
      * now exists [], b.
      * exists (c :: a), b. now rewrite Hb.
    + intros [a [b Hb]]. destruct a as [|d a].
      * left. now exists b.
      * right. injection Hb as -> ->. now exists a, b.
Qed.

Lemma contains_absent (p s : str) : contains p s = false <-> ~ occurs p s.
Proof.
  rewrite <- contains_occurs. destruct (contains p s); split; congruence.
Qed.

(** [cut] splits at an occurrence. *)
Lemma cut_some (p s before after : str) :
  cut p s = Some (before, after) -> s = before ++ p ++ after.
Proof.
  revert before. induction s as [|c s IH]; intros before;
    unfold cut; fold cut.
  - destruct (starts_with p []) eqn:E; [|discriminate].
    intro H. injection H as <- <-. now apply starts_with_skipn.
  - destruct (starts_with p (c :: s)) eqn:E.
    + intro H. injection H as <- <-. now apply starts_with_skipn.
    + destruct (cut p s) as [[b a]|]; [|discriminate].
      intro H. injection H as <- <-. simpl. f_equal. now apply IH.
Qed.

Lemma cut_none (p s : str) : cut p s = None <-> ~ occurs p s.
Proof.
  rewrite <- contains_absent. induction s as [|c s IH].
  - simpl. destruct (starts_with p []); simpl; split; congruence.
  - unfold cut; fold cut.
    change (contains p (c :: s))
      with (starts_with p (c :: s) || contains p s).
    destruct (starts_with p (c :: s)); simpl; [split; congruence|].
    rewrite <- IH. destruct (cut p s) as [[b a]|]; split; congruence.
Qed.

(** [cut] splits at the first occurrence. *)
Lemma cut_first (p s before after a b : str) :
  cut p s = Some (before, after) -> s = a ++ p ++ b ->
  (List.length before <= List.length a)%nat.
Proof.
  revert before a. induction s as [|c s IH]; intros before a;
    unfold cut; fold cut.
  - destruct (starts_with p []); [|discriminate].
    intro H. injection H as <- <-. intros _. simpl. lia.
  - destruct (starts_with p (c :: s)) eqn:E.
    + intro H. injection H as <- <-. intros _. simpl. lia.
    + destruct (cut p s) as [[b0 a0]|] eqn:C; [|discriminate].
      intro H. injection H as <- <-. intro Hs.
      destruct a as [|d a].
      * assert (X : starts_with p (c :: s) = true).
        { apply starts_with_prefix. exists b. exact Hs. }
        congruence.
      * injection Hs as -> Hs. simpl.
        specialize (IH b0 a eq_refl Hs). lia.
Qed.

(** The thinking content found by the search sits between the first
    [<think>] and the first [</think>] after it. *)
Lemma search_think_sound (s content : str) :
  search_think s = Some content ->
  exists a b,
    s = a ++ think_open ++ content ++ think_close ++ b /\
    (forall a' b', s = a' ++ think_open ++ b' ->
       (List.length a <= List.length a')%nat) /\
    (forall c' b', content ++ think_close ++ b = c' ++ think_close ++ b' ->
       (List.length content <= List.length c')%nat).
Proof.
  unfold search_think.
  destruct (cut think_open s) as [[a rest]|] eqn:E1; [|discriminate].
  destruct (cut think_close rest) as [[c b]|] eqn:E2; [|discriminate].
  intro H. injection H as <-.
  pose proof (cut_some _ _ E1) as H1. pose proof (cut_some _ _ E2) as H2.
  exists a, b. split; [|split].
  - now rewrite H1, H2.
  - intros a' b' Hs. exact (cut_first _ _ _ E1 Hs).
  - intros c' b' Hs. rewrite <- H2 in Hs. exact (cut_first _ _ _ E2 Hs).
Qed.

(** ** [int] *)

Lemma int_raises (s : str) (e : exn) : int s = Raise e -> e = ValueError.
Proof.
  unfold int.
  destruct (match trim is_int_space s with
            | [] => (false, trim is_int_space s)
            | c :: rest =>
                if Ascii.eqb c "-" then (true, rest)
                else if Ascii.eqb c "+" then (false, rest)
                else (false, trim is_int_space s)
            end) as [negative digits].
  destruct (int_digits digits 0 0) as [[v count]|]; [|congruence].
  destruct (count <=? int_max_str_digits)%nat; congruence.
Qed.

(** ** [evaluate_sampling_rate] *)

Lemma evaluate_sampling_rate_returns (s : str) :
  exists score, evaluate_sampling_rate s = Ok score /\ 0 <= score <= 1.
Proof.
  unfold evaluate_sampling_rate.
  destruct (int s) as [rate|e] eqn:E; simpl.
  - repeat match goal with
           | |- context [if ?c then _ else _] => destruct c
           end; eexists; (split; [reflexivity | split; discriminate]).
  - apply int_raises in E. subst e. simpl.
    eexists; (split; [reflexivity | split; discriminate]).
Qed.

(** C6.  [evaluate_sampling_rate] grades the parsed rate by fixed thresholds:
    0.0 for rate <= 0, 1.0 for 1..5, 0.8 for 6..10, 0.5 for 11..30, 0.2 above
    30, and 0.0 when [int] rejects the string; the boundary values 5, 6, 10,
    11, 30, 31, 0 and -1 grade as 1.0, 0.8, 0.8, 0.5, 0.5, 0.2, 0.0, 0.0. *)
Theorem evaluate_sampling_rate_thresholds :
  (forall (s : str) (rate : Z), int s = Ok rate ->
     ((rate <= 0)%Z -> evaluate_sampling_rate s = Ok 0) /\
     ((1 <= rate <= 5)%Z -> evaluate_sampling_rate s = Ok 1) /\
     ((6 <= rate <= 10)%Z -> evaluate_sampling_rate s = Ok 0.8) /\
     ((11 <= rate <= 30)%Z -> evaluate_sampling_rate s = Ok 0.5) /\
     ((30 < rate)%Z -> evaluate_sampling_rate s = Ok 0.2)) /\
  (forall (s : str) (e : exn), int s = Raise e ->
     evaluate_sampling_rate s = Ok 0) /\
  evaluate_sampling_rate (lit "5") = Ok 1 /\
  evaluate_sampling_rate (lit "6") = Ok 0.8 /\
  evaluate_sampling_rate (lit "10") = Ok 0.8 /\
  evaluate_sampling_rate (lit "11") = Ok 0.5 /\
  evaluate_sampling_rate (lit "30") = Ok 0.5 /\
  evaluate_sampling_rate (lit "31") = Ok 0.2 /\
  evaluate_sampling_rate (lit "0") = Ok 0 /\
  evaluate_sampling_rate (lit "-1") = Ok 0.
Proof.
  split; [|split].
  - intros s rate E. unfold evaluate_sampling_rate. rewrite E. simpl.
    repeat split; intro H;
      repeat match goal with
             | |- context [(?a <=? ?b)%Z] => destruct (Z.leb_spec a b)
             end; simpl; try reflexivity; lia.
  - intros s e E. unfold evaluate_sampling_rate. rewrite E.
    apply int_raises in E. now subst e.
  - repeat split; reflexivity.
Qed.

Lemma evaluate_sampling_rate_thresholds_witness :
  int (lit " 7 ") = Ok 7%Z /\ evaluate_sampling_rate (lit " 7 ") = Ok 0.8 /\
  int (lit "3.5") = Raise ValueError /\
  evaluate_sampling_rate (lit "3.5") = Ok 0.
Proof.
  split; [reflexivity|]. split.
  - apply (proj1 evaluate_sampling_rate_thresholds (lit " 7 ") 7%Z).
    + reflexivity.
    + lia.
  - split; [reflexivity|].
    apply (proj1 (proj2 evaluate_sampling_rate_thresholds)
             (lit "3.5") ValueError).
    reflexivity.
Defined.

(** ** [check_format] *)

Lemma thinking_quality_range (n : Z) :
  (0 <= n)%Z -> 0 <= Qmin 1 (inject_Z n / 200) <= 1.
Proof.
  intro Hn.
  assert (H0 : 0 <= inject_Z n / 200).
  { apply Qle_shift_div_l; [reflexivity|].
    rewrite Qmult_0_l. change 0 with (inject_Z 0). now rewrite <- Zle_Qle. }
  destruct (Q.min_spec 1 (inject_Z n / 200)) as [[_ E]|[L E]];
    rewrite E; split; try assumption; discriminate.
Qed.

Lemma len_nonneg (s : str) : (0 <= len s)%Z.
Proof. unfold len. lia. Qed.

Lemma check_format_range (s : str) : 0 <= check_format s <= 1.
Proof.
  unfold check_format.
  destruct (contains think_open s && contains think_close s);
    destruct (contains grounding_open s && contains grounding_close s);
    simpl; try (split; discriminate).
  destruct (search_think s) as [c|].
  - pose proof (thinking_quality_range (len_nonneg (strip c))) as [L U].
    split; lra.
  - split; discriminate.
Qed.



(** ** Arithmetic on [num] *)

Lemma float_of_fits (n : num) : fits n -> float_of n = Ok (value n).
Proof.
  destruct n as [z|q]; simpl; [|reflexivity].
  intro H. destruct (Z.leb_spec float_overflow (Z.abs z)); [lia|reflexivity].
Qed.


Lemma float_overflow_bounds :
  (4 < float_overflow /\ 2 ^ 1024 < float_overflow * 2
   /\ float_overflow * 2 <= 2 ^ 1025)%Z.
Proof. vm_compute. repeat split; discriminate. Qed.

Lemma fits_small (z : Z) : (Z.abs z <= 4)%Z -> fits (Int z).
Proof. pose proof float_overflow_bounds. simpl. lia. Qed.

Lemma stored_as_zero_false (q : Q) :
  float_tiny < q -> stored_as_zero q = false.
Proof.
  intro H. unfold stored_as_zero. apply Qle_bool_gt.
  apply Qlt_le_trans with q; [assumption | apply Qle_Qabs].
Qed.


Lemma min2_value (a b : num) : value (min2 a b) == Qmin (value a) (value b).
Proof.
  unfold min2, num_lt. destruct (Qltb (value b) (value a)) eqn:E.
  - apply Qltb_lt in E. symmetry. apply Q.min_r. now apply Qlt_le_weak.
  - apply Qltb_ge in E. symmetry. now apply Q.min_l.
Qed.

Lemma max2_value (a b : num) : value (max2 a b) == Qmax (value a) (value b).
Proof.
  unfold max2, num_lt. destruct (Qltb (value a) (value b)) eqn:E.
  - apply Qltb_lt in E. symmetry. apply Q.max_r. now apply Qlt_le_weak.
  - apply Qltb_ge in E. symmetry. now apply Q.max_l.
Qed.

Lemma fits_min2 (a b : num) : fits a -> fits b -> fits (min2 a b).
Proof. unfold min2. now destruct (num_lt b a). Qed.

Lemma fits_max2 (a b : num) : fits a -> fits b -> fits (max2 a b).
Proof. unfold max2. now destruct (num_lt a b). Qed.

(** The smaller of a distance [a] and its complement [n - a] converts
    whenever [a] does. *)
Lemma fits_min2_wrap (n a : Z) :
  (0 <= n)%Z -> (0 <= a < float_overflow)%Z ->
  fits (min2 (Int a) (Int (n - a))).
Proof.
  intros Hn Ha. unfold min2, num_lt.
  destruct (Qltb (value (Int (n - a))) (value (Int a))) eqn:E; simpl.
  - apply Qltb_lt in E. simpl in E. rewrite <- Zlt_Qlt in E. lia.
  - lia.
Qed.

Lemma num_truediv_by_float (n : num) (q : Q) :
  fits n -> stored_as_zero q = false ->
  num_truediv n (Float q) = Ok (Float (value n / q)).
Proof.
  intros Hn Hq. unfold num_truediv.
  destruct n as [z|x]; rewrite float_of_fits by assumption; simpl;
    now rewrite Hq.
Qed.


Lemma num_sub_from_int (z : Z) (q : Q) :
  fits (Int z) -> num_sub (Int z) (Float q) = Ok (Float (inject_Z z - q)).
Proof.
  intro H. unfold num_sub. now rewrite float_of_fits by assumption.
Qed.

Lemma num_mul_by_float (c : Q) (n : num) :
  fits n -> num_mul (Float c) n = Ok (Float (c * value n)).
Proof.
  intro H. unfold num_mul. simpl. now rewrite float_of_fits by assumption.
Qed.

Lemma pow2_value (e : Z) : value (pow2 e) == 2 ^ e.
Proof.
  unfold pow2. destruct (Z.leb_spec 0 e); simpl; [|reflexivity].
  now rewrite Zpower_Qpower.
Qed.

(** ** [evaluate_grounding] *)

(** Steps through the four [int(parts[i])] of [evaluate_grounding] once the
    fields are known to parse. *)
Ltac parsed_fields H0 H1 H2 H3 :=
  unfold evaluate_grounding; cbn [index nth_error bind];
  rewrite H0; cbn [bind]; rewrite H1; cbn [bind];
  rewrite H2; cbn [bind]; rewrite H3; cbn [bind].

Lemma Qhalf (x : Q) : x / 2 == x * (1 # 2).
Proof. reflexivity. Qed.

Lemma float_tiny_bounds :
  float_tiny < 1 # 4 /\ float_tiny < 2 ^ (-1073) * (1 # 2)
  /\ 2 ^ (-1074) * (1 # 2) <= float_tiny.
Proof. vm_compute. repeat split; discriminate. Qed.

(** [num_segments - abs(pred_segment - gt_segment)] and the distance taken
    from it. *)
Lemma wrap_around_returns (gl a : Z) :
  (0 <= a < float_overflow)%Z ->
  exists w, num_sub (pow2 gl) (Int a) = Ok w /\
            value w == 2 ^ gl - inject_Z a /\
            fits (min2 (Int a) w).
Proof.
  intros Ha. unfold pow2. destruct (Z.leb_spec 0 gl) as [Hgl|Hgl].
  - exists (Int (2 ^ gl - a)). split; [reflexivity|]. split.
    + simpl. unfold Z.sub. rewrite inject_Z_plus, inject_Z_opp.
      now rewrite Zpower_Qpower.
    + apply fits_min2_wrap; [|assumption]. now apply Z.pow_nonneg.
  - exists (Float (2 ^ gl - inject_Z a)). split; [|split].
    + unfold num_sub.
      rewrite (@float_of_fits (Int a)) by (simpl; lia). reflexivity.
    + reflexivity.
    + apply fits_min2; simpl; [lia|exact I].
Qed.


(** [num_segments / 2] *)
Lemma half_returns (gl : Z) :
  (-1073 <= gl <= 1024)%Z ->
  exists h, num_truediv (pow2 gl) (Int 2) = Ok (Float h) /\
            h == 2 ^ gl / 2 /\ stored_as_zero h = false.
Proof.
  intros Hgl. pose proof float_overflow_bounds as [_ [B _]].
  pose proof float_tiny_bounds as [T4 [T _]].
  unfold pow2. destruct (Z.leb_spec 0 gl) as [H0|H0].
  - exists (inject_Z (2 ^ gl) / inject_Z 2). split; [|split].
    + unfold num_truediv. change (2 =? 0)%Z with false. cbv iota.
      assert (P : (2 ^ gl <= 2 ^ 1024)%Z) by (apply Z.pow_le_mono_r; lia).
      assert (Q0 : (0 < 2 ^ gl)%Z) by (apply Z.pow_pos_nonneg; lia).
      destruct (Z.leb_spec (float_overflow * Z.abs 2) (Z.abs (2 ^ gl)));
        [|reflexivity].
      exfalso. change (Z.abs 2) with 2%Z in *. lia.
    + now rewrite Zpower_Qpower.
    + apply stored_as_zero_false.
      assert (Q1 : 1 <= inject_Z (2 ^ gl)).
      { change 1 with (inject_Z 1). rewrite <- Zle_Qle.
        assert (0 < 2 ^ gl)%Z by (apply Z.pow_pos_nonneg; lia). lia. }
      change (inject_Z 2) with 2.
      rewrite Qhalf.
      set (x := inject_Z (2 ^ gl)) in *. set (t := float_tiny) in *.
      clearbody x t. lra.
  - exists (2 ^ gl / inject_Z 2). split; [|split].
    + unfold num_truediv.
      rewrite (@float_of_fits (Int 2)) by (apply fits_small; simpl; lia).
      cbn [float_of bind value].
      replace (stored_as_zero (inject_Z 2)) with false by reflexivity.
      reflexivity.
    + reflexivity.
    + apply stored_as_zero_false.
      assert (M : 2 ^ (-1073) <= 2 ^ gl).
      { apply Qpower_le_compat_l; [lia | discriminate]. }
      change (inject_Z 2) with 2. rewrite Qhalf.
      set (x := 2 ^ gl) in *. set (c := 2 ^ (-1073)) in *.
      set (t := float_tiny) in *. clearbody x c t. lra.
Qed.



Section ParsedFields.

Variables (p0 p1 g0 g1 : str) (pr gr : list str).
Variables (pred_layer pred_segment gt_layer gt_segment : Z).
Hypothesis (P0 : int p0 = Ok pred_layer) (P1 : int p1 = Ok pred_segment).
Hypothesis (G0 : int g0 = Ok gt_layer) (G1 : int g1 = Ok gt_segment).

Let score : result Q := evaluate_grounding (p0 :: p1 :: pr) (g0 :: g1 :: gr).
Let gap : Z := Z.abs (pred_segment - gt_segment).

Lemma exact_match :
  pred_layer = gt_layer -> pred_segment = gt_segment -> score = Ok 1.
Proof.
  intros -> ->. subst score. parsed_fields P0 P1 G0 G1.
  now rewrite !Z.eqb_refl.
Qed.

Lemma same_layer_returns :
  pred_layer = gt_layer -> pred_segment <> gt_segment ->
  (-1073 <= gt_layer <= 1024)%Z -> (gap < float_overflow)%Z ->
  exists v, score = Ok v /\
    v == 0.8 * Qmax 0 (1 - Qmin (inject_Z gap) (2 ^ gt_layer - inject_Z gap)
                           / (2 ^ gt_layer / 2)).
Proof.
  intros -> Hs Hl Hg. subst score gap. parsed_fields P0 P1 G0 G1.
  rewrite Z.eqb_refl. apply Z.eqb_neq in Hs. rewrite Hs. cbn [andb].
  destruct (@wrap_around_returns gt_layer (Z.abs (pred_segment - gt_segment)))
    as [w [Ew [Vw Fw]]]; [lia|].
  destruct (half_returns Hl) as [h [Eh [Vh Zh]]].
  rewrite Ew. cbn [bind]. rewrite Eh. cbn [bind].
  rewrite num_truediv_by_float by assumption. cbn [bind].
  rewrite num_sub_from_int by (apply fits_small; simpl; lia). cbn [bind].
  rewrite num_mul_by_float
    by (apply fits_max2; [apply fits_small; simpl; lia | exact I]).
  cbn [bind value try_except].
  eexists. split; [reflexivity|].
  rewrite max2_value. cbn [value]. rewrite min2_value. cbn [value].
  rewrite Vw, Vh. reflexivity.
Qed.


Lemma other_layer_returns :
  pred_layer <> gt_layer ->
  (Z.abs (pred_layer - gt_layer) < 4 * float_overflow)%Z ->
  exists v, score = Ok v /\
    v == 0.4 * Qmax 0 (1 - inject_Z (Z.abs (pred_layer - gt_layer)) / 4).
Proof.
  intros Hl Hd. subst score. parsed_fields P0 P1 G0 G1.
  apply Z.eqb_neq in Hl. rewrite Hl. cbn [andb].
  unfold num_truediv at 1. change (4 =? 0)%Z with false. cbv iota.
  change (Z.abs 4) with 4%Z. rewrite Z.abs_idemp.
  destruct (Z.leb_spec (float_overflow * 4)
              (Z.abs (pred_layer - gt_layer))); [lia|].
  cbn [bind].
  rewrite num_sub_from_int by (apply fits_small; simpl; lia). cbn [bind].
  rewrite num_mul_by_float
    by (apply fits_max2; [apply fits_small; simpl; lia | exact I]).
  cbn [bind value try_except].
  eexists. split; [reflexivity|].
  rewrite max2_value. cbn [value]. reflexivity.
Qed.


End ParsedFields.

(** A field that [int] rejects makes the score 0.0. *)
Lemma unparsed_field (p0 p1 g0 g1 : str) (pr gr : list str) :
  (exists e, int p0 = Raise e) \/ (exists e, int p1 = Raise e) \/
  (exists e, int g0 = Raise e) \/ (exists e, int g1 = Raise e) ->
  evaluate_grounding (p0 :: p1 :: pr) (g0 :: g1 :: gr) = Ok 0.
Proof.
  intros H. unfold evaluate_grounding. cbn [index nth_error bind].
  destruct (int p0) as [pl|e0] eqn:E0;
    [|apply int_raises in E0; now subst e0].
  destruct (int p1) as [ps|e1] eqn:E1;
    [|apply int_raises in E1; now subst e1].
  destruct (int g0) as [gl|e2] eqn:E2;
    [|apply int_raises in E2; now subst e2].
  destruct (int g1) as [gs|e3] eqn:E3;
    [|apply int_raises in E3; now subst e3].
  exfalso. destruct H as [[e H]|[[e H]|[[e H]|[e H]]]]; discriminate.
Qed.

(** Whatever it is given, [evaluate_grounding] lets no [ValueError] or
    [IndexError] out. *)
Lemma evaluate_grounding_handles (pred_parts gt_parts : list str) (e : exn) :
  evaluate_grounding pred_parts gt_parts = Raise e ->
  value_or_index_error e = false.
Proof.
  unfold evaluate_grounding, try_except.
  match goal with |- match ?b with _ => _ end = _ -> _ => destruct b as [v|e'] end;
    [discriminate|].
  destruct (value_or_index_error e') eqn:E; [discriminate|].
  intro H. injection H as <-. exact E.
Qed.




(** ** [video_grounding] *)

Lemma try_any_returns (body handler : result Q) :
  (exists v, handler = Ok v) ->
  exists v, try_except body any_exception handler = Ok v.
Proof.
  intros [v ->]. destruct body as [a|e]; simpl; eauto.
Qed.

(** No exception leaves [video_grounding]. *)
Lemma video_grounding_returns (predict_str ground_truth : str) :
  exists v, video_grounding predict_str ground_truth = Ok v.
Proof.
  unfold video_grounding.
  destruct (Qeq_bool (check_format predict_str) 0); [eauto|].
  destruct (search_grounding predict_str); [|eauto].
  destruct (search_grounding ground_truth); [|eauto].
  apply try_any_returns. eauto.
Qed.

Lemma format_gate (predict_str : str) :
  0 < check_format predict_str ->
  Qeq_bool (check_format predict_str) 0 = false.
Proof.
  intro H. destruct (Qeq_bool (check_format predict_str) 0) eqn:E;
    [|reflexivity].
  apply Qeq_bool_eq in E. rewrite E in H. now apply Qlt_irrefl in H.
Qed.

Section ExtractedContents.

Variables (predict_str ground_truth pred_content gt_content : str).
Hypothesis (Format : 0 < check_format predict_str).
Hypothesis (Pred : search_grounding predict_str = Some pred_content).
Hypothesis (Gt : search_grounding ground_truth = Some gt_content).

Let format_score : Q := check_format predict_str.
Let pred_parts : list str := map strip (split "," pred_content).
Let gt_parts : list str := map strip (split "," gt_content).

Lemma wrong_field_count :
  List.length pred_parts <> 3%nat \/ List.length gt_parts <> 3%nat ->
  video_grounding predict_str ground_truth = Ok (0.2 * format_score).
Proof.
  intro H. unfold video_grounding.
  rewrite format_gate, Pred, Gt by assumption.
  fold pred_parts gt_parts format_score.
  assert (E : negb (List.length pred_parts =? 3)%nat
              || negb (List.length gt_parts =? 3)%nat = true).
  { apply orb_true_iff.
    destruct H as [H|H]; [left|right];
      now apply negb_true_iff, Nat.eqb_neq. }
  rewrite E. reflexivity.
Qed.

Variables (p0 p1 p2 g0 g1 g2 : str).
Hypothesis (PredParts : pred_parts = [p0; p1; p2]).
Hypothesis (GtParts : gt_parts = [g0; g1; g2]).

Lemma three_fields :
  video_grounding predict_str ground_truth
  = try_except
      (bind (evaluate_grounding [p0; p1; p2] [g0; g1; g2])
         (fun grounding_score =>
            bind (evaluate_sampling_rate p2)
              (fun sampling_score =>
                 Ok (0.3 * format_score + 0.5 * grounding_score
                     + 0.2 * sampling_score))))
      any_exception (Ok (0.1 * format_score)).
Proof.
  unfold video_grounding.
  rewrite format_gate, Pred, Gt by assumption.
  fold pred_parts gt_parts format_score.
  rewrite PredParts, GtParts. reflexivity.
Qed.

Lemma weighted_when_scored (grounding_score : Q) :
  evaluate_grounding [p0; p1; p2] [g0; g1; g2] = Ok grounding_score ->
  exists sampling_score,
    evaluate_sampling_rate p2 = Ok sampling_score /\
    video_grounding predict_str ground_truth
    = Ok (0.3 * format_score + 0.5 * grounding_score
          + 0.2 * sampling_score).
Proof.
  intro E. rewrite three_fields, E.
  destruct (evaluate_sampling_rate_returns p2) as [ss [Es _]].
  exists ss. split; [assumption|]. now rewrite Es.
Qed.


End ExtractedContents.


(** C7.  With a positive format score and grounding content extracted from
    both texts, a content that does not split on [,] into exactly 3 trimmed
    parts makes [video_grounding] return 0.2 * format_score. *)
Theorem wrong_field_count_score
    (predict_str ground_truth pred_content gt_content : str) :
  0 < check_format predict_str ->
  search_grounding predict_str = Some pred_content ->
  search_grounding ground_truth = Some gt_content ->
  List.length (map strip (split "," pred_content)) <> 3%nat \/
  List.length (map strip (split "," gt_content)) <> 3%nat ->
  video_grounding predict_str ground_truth
  = Ok (0.2 * check_format predict_str).
Proof.
  intros. eapply wrong_field_count; eassumption.
Qed.

Lemma wrong_field_count_score_witness :
  video_grounding (lit "<think>ok</think><grounding>2, 1</grounding>")
                  (lit "<grounding>2, 1, 0</grounding>")
  = Ok (0.2 * check_format (lit "<think>ok</think><grounding>2, 1</grounding>")).
Proof.
  apply (@wrong_field_count_score
           (lit "<think>ok</think><grounding>2, 1</grounding>")
           (lit "<grounding>2, 1, 0</grounding>")
           (lit "2, 1") (lit "2, 1, 0")).
  - reflexivity.
  - reflexivity.
  - reflexivity.
  - left. simpl. lia.
Defined.




(** C1 (the code at the failing input).  A predicted segment far outside
    the layer's range makes the wrap-around distance negative and the score
    exceed 1: for segment 100 against segment 1 at layer 2,
    [video_grounding] returns 19.75. *)
Theorem video_grounding_exceeds_one :
  exists v,
    video_grounding (lit "<grounding>2, 100, 3</grounding>")
                    (lit "<grounding>2, 1, 0</grounding>") = Ok v /\
    v == 19.75 /\ ~ v <= 1.
Proof.
  eexists. split; [vm_compute; reflexivity|].
  split; [reflexivity|]. intro H. vm_compute in H. now apply H.
Qed.

(** ** The grounding pattern *)

Lemma not_lt_true (c : ascii) : not_lt c = true <-> c <> "<"%char.
Proof.
  unfold not_lt. rewrite negb_true_iff. split.
  - intros E ->. now rewrite Ascii.eqb_refl in E.
  - intro N. destruct (Ascii.eqb c "<") eqn:E; [|reflexivity].
    apply Ascii.eqb_eq in E. contradiction.
Qed.

Lemma take_while_prefix (f : ascii -> bool) (s : str) :
  s = take_while f s ++ skipn (List.length (take_while f s)) s.
Proof.
  induction s as [|c s IH]; simpl; [reflexivity|].
  destruct (f c); simpl; [now f_equal | reflexivity].
Qed.

Lemma take_while_all (f : ascii -> bool) (s : str) :
  Forall (fun c => f c = true) (take_while f s).
Proof.
  induction s as [|c s IH]; simpl; [constructor|].
  destruct (f c) eqn:E; constructor; assumption.
Qed.

Lemma take_while_stop (f : ascii -> bool) (c : str) (d : ascii) (r : str) :
  Forall (fun x => f x = true) c -> f d = false ->
  take_while f (c ++ d :: r) = c.
Proof.
  intros H Hd. induction H as [|x c Hx _ IH]; simpl.
  - now rewrite Hd.
  - now rewrite Hx, IH.
Qed.

Lemma match_grounding_sound (s content : str) :
  match_grounding s = Some content ->
  grounding_content content /\
  exists b, s = grounding_open ++ content ++ grounding_close ++ b.
Proof.
  unfold match_grounding.
  destruct (starts_with grounding_open s) eqn:E1; [|discriminate].
  apply starts_with_skipn in E1.
  set (rest := skipn (List.length grounding_open) s) in *.
  pose proof (take_while_prefix not_lt rest) as Hrest.
  pose proof (take_while_all not_lt rest) as Hall.
  destruct (take_while not_lt rest) as [|c content'] eqn:Et; [discriminate|].
  destruct (starts_with grounding_close
              (skipn (List.length (c :: content')) rest)) eqn:E2;
    [|discriminate].
  intro H. injection H as <-.
  apply starts_with_prefix in E2 as [b Eb]. split.
  - split; [discriminate|]. intro Hin.
    rewrite Forall_forall in Hall. apply Hall in Hin.
    apply not_lt_true in Hin. now apply Hin.
  - exists b. rewrite E1 at 1. rewrite Hrest at 1. now rewrite Eb.
Qed.

Lemma match_grounding_complete (content b : str) :
  grounding_content content ->
  match_grounding (grounding_open ++ content ++ grounding_close ++ b)
  = Some content.
Proof.
  intros [Hne Hlt]. unfold match_grounding.
  assert (E1 : starts_with grounding_open
                 (grounding_open ++ content ++ grounding_close ++ b) = true).
  { apply starts_with_prefix. eauto. }
  rewrite E1, skipn_app, skipn_all, Nat.sub_diag.
  cbn [skipn app].
  assert (Et : take_while not_lt (content ++ grounding_close ++ b) = content).
  { apply take_while_stop; [|reflexivity].
    apply Forall_forall. intros x Hx. apply not_lt_true.
    intros ->. contradiction. }
  rewrite Et. destruct content as [|c content']; [contradiction|].
  rewrite skipn_app, skipn_all, Nat.sub_diag. cbn [skipn app].
  assert (E2 : starts_with grounding_close (grounding_close ++ b) = true).
  { apply starts_with_prefix. eauto. }
  now rewrite E2.
Qed.

(** The search returns the content of a match... *)
Lemma search_grounding_sound (s content : str) :
  search_grounding s = Some content -> matches_grounding s content.
Proof.
  induction s as [|c s IH]; unfold search_grounding; fold search_grounding.
  - destruct (match_grounding []) eqn:E; [|discriminate].
    intro H. injection H as ->.
    apply match_grounding_sound in E as [Hc [b Hb]].
    split; [assumption|]. now exists [], b.
  - destruct (match_grounding (c :: s)) eqn:E.
    + intro H. injection H as ->.
      apply match_grounding_sound in E as [Hc [b Hb]].
      split; [assumption|]. now exists [], b.
    + intro H. apply IH in H as [Hc [a [b Hb]]].
      split; [assumption|]. exists (c :: a), b. now rewrite Hb.
Qed.

(** ... and finds one whenever some substring matches. *)
Lemma search_grounding_complete (s content : str) :
  matches_grounding s content -> exists found, search_grounding s = Some found.
Proof.
  intros [Hc [a [b ->]]]. induction a as [|x a IH].
  - exists content. cbn [app].
    pose proof (match_grounding_complete b Hc) as E.
    destruct (grounding_open ++ content ++ grounding_close ++ b) eqn:Es;
      unfold search_grounding; fold search_grounding; now rewrite E.
  - destruct IH as [found IH].
    change ((x :: a) ++ grounding_open ++ content ++ grounding_close ++ b)
      with (x :: (a ++ grounding_open ++ content ++ grounding_close ++ b)).
    unfold search_grounding; fold search_grounding.
    destruct (match_grounding
                (x :: a ++ grounding_open ++ content ++ grounding_close ++ b));
      eauto.
Qed.

(** The match found is the leftmost one. *)
Lemma search_grounding_leftmost (s found : str) :
  search_grounding s = Some found ->
  exists a b,
    s = a ++ grounding_open ++ found ++ grounding_close ++ b /\
    forall a' content b',
      grounding_content content ->
      s = a' ++ grounding_open ++ content ++ grounding_close ++ b' ->
      (List.length a <= List.length a')%nat.
Proof.
  induction s as [|c s IH]; unfold search_grounding; fold search_grounding.
  - destruct (match_grounding []) eqn:E; [|discriminate].
    intro H. injection H as ->.
    apply match_grounding_sound in E as [_ [b Hb]].
    exists [], b. split; [assumption|]. intros. simpl. lia.
  - destruct (match_grounding (c :: s)) eqn:E.
    + intro H. injection H as ->.
      apply match_grounding_sound in E as [_ [b Hb]].
      exists [], b. split; [assumption|]. intros. simpl. lia.
    + intro H. destruct (IH H) as [a [b [Hs Hleft]]].
      exists (c :: a), b. split; [now rewrite Hs|].
      intros a' content b' Hc Hs'. destruct a' as [|d a'].
      * cbn [app] in Hs'. rewrite Hs' in E.
        rewrite match_grounding_complete in E by assumption. discriminate.
      * injection Hs' as _ Hs'. simpl.
        specialize (Hleft a' content b' Hc Hs'). lia.
Qed.

Lemma search_grounding_none (s : str) :
  search_grounding s = None <-> (forall content, ~ matches_grounding s content).
Proof.
  split.
  - intros E content M.
    apply search_grounding_complete in M as [found M]. congruence.
  - intro H. destruct (search_grounding s) as [content|] eqn:E;
      [|reflexivity].
    apply search_grounding_sound in E. now apply H in E.
Qed.

(** Without extractable grounding content on either side the score is
    0.1 * format_score (which is 0 when the format score is). *)
Lemma no_content_score (predict_str ground_truth : str) :
  search_grounding predict_str = None \/ search_grounding ground_truth = None ->
  exists v, video_grounding predict_str ground_truth = Ok v /\
            v == 0.1 * check_format predict_str.
Proof.
  intro H. unfold video_grounding.
  destruct (Qeq_bool (check_format predict_str) 0) eqn:E.
  - apply Qeq_bool_eq in E. exists 0. split; [reflexivity|].
    rewrite E. reflexivity.
  - exists (0.1 * check_format predict_str). split; [|reflexivity].
    destruct H as [-> | ->]; [reflexivity|].
    now destruct (search_grounding predict_str).
Qed.

(** C10.  A text none of whose substrings matches
    [<grounding>([^<]+)</grounding>] has no grounding content, whether or not
    the two markers occur in it, and [video_grounding] then returns
    0.1 * format_score.  For the prediction [<grounding></grounding>] both
    markers occur, [check_format] gives 0.5, and the score is 0.05. *)
Theorem absent_grounding_content :
  (forall predict_str ground_truth : str,
     (forall content, ~ matches_grounding predict_str content) \/
     (forall content, ~ matches_grounding ground_truth content) ->
     exists v, video_grounding predict_str ground_truth = Ok v /\
               v == 0.1 * check_format predict_str) /\
  occurs grounding_open (lit "<grounding></grounding>") /\
  occurs grounding_close (lit "<grounding></grounding>") /\
  (forall content,
     ~ matches_grounding (lit "<grounding></grounding>") content) /\
  check_format (lit "<grounding></grounding>") = 0.5 /\
  (forall ground_truth : str,
     exists v, video_grounding (lit "<grounding></grounding>") ground_truth
               = Ok v /\
               v == 0.1 * 0.5 /\ v == 0.05).
Proof.
  assert (N : search_grounding (lit "<grounding></grounding>") = None)
    by reflexivity.
  split; [|split; [|split; [|split; [|split]]]].
  - intros p g H. apply no_content_score.
    destruct H as [H|H]; [left|right]; now apply search_grounding_none.
  - apply contains_occurs. reflexivity.
  - apply contains_occurs. reflexivity.
  - now apply search_grounding_none.
  - reflexivity.
  - intro g.
    destruct (@no_content_score (lit "<grounding></grounding>") g)
      as [v [E V]]; [now left|].
    exists v. split; [assumption|]. split; rewrite V; reflexivity.
Qed.

Lemma absent_grounding_content_witness :
  exists v,
    video_grounding (lit "<think>hm</think><grounding><b>1</b></grounding>")
                    (lit "<grounding>2, 1, 0</grounding>") = Ok v /\
    v == 0.1 * check_format
               (lit "<think>hm</think><grounding><b>1</b></grounding>").
Proof.
  apply (proj1 absent_grounding_content
           (lit "<think>hm</think><grounding><b>1</b></grounding>")
           (lit "<grounding>2, 1, 0</grounding>")).
  left. apply search_grounding_none. reflexivity.
Defined.

(** ** [compute_layer_segment] *)

Lemma in_range (x n : Z) : In x (range n) <-> (0 <= x < n)%Z.
Proof.
  unfold range. rewrite in_map_iff. split.
  - intros [k [<- Hk]]. apply in_seq in Hk. lia.
  - intros H. exists (Z.to_nat x). split; [lia|]. apply in_seq. lia.
Qed.

(** A loop whose body always returns runs as a fold. *)
Lemma for_each_simulates {A S T : Type} (R : S -> T -> Prop)
    (body : A -> S -> result S) (step : T -> A -> T) (xs : list A) :
  (forall x s t, In x xs -> R s t ->
     exists s', body x s = Ok s' /\ R s' (step t x)) ->
  forall s t, R s t ->
    exists s', for_each xs body s = Ok s' /\ R s' (fold_left step xs t).
Proof.
  induction xs as [|x xs IH]; intros Hbody s t Hst.
  - exists s. split; [reflexivity | assumption].
  - destruct (Hbody x s t (or_introl eq_refl) Hst) as [s1 [E1 R1]].
    destruct (IH (fun y s0 t0 Hy => Hbody y s0 t0 (or_intror Hy)) s1 _ R1)
      as [s' [E' R']].
    exists s'. split; [|assumption]. cbn [for_each]. now rewrite E1.
Qed.

Lemma for_each_unchanged {A S : Type} (body : A -> S -> result S)
    (xs : list A) (s : S) :
  (forall x, In x xs -> body x s = Ok s) -> for_each xs body s = Ok s.
Proof.
  induction xs as [|x xs IH]; intro H; [reflexivity|].
  cbn [for_each]. rewrite (H x (or_introl eq_refl)). cbn [bind].
  apply IH. intros y Hy. apply H. now right.
Qed.

Lemma fold_left_map {A B T : Type} (f : T -> B -> T) (h : A -> B)
    (xs : list A) (t : T) :
  fold_left f (map h xs) t = fold_left (fun t x => f t (h x)) xs t.
Proof.
  revert t. induction xs as [|x xs IH]; intro t; [reflexivity|]. apply IH.
Qed.

Lemma fold_left_flat_map {A B T : Type} (f : T -> B -> T) (g : A -> list B)
    (xs : list A) (t : T) :
  fold_left f (flat_map g xs) t
  = fold_left (fun t x => fold_left f (g x) t) xs t.
Proof.
  revert t. induction xs as [|x xs IH]; intro t; [reflexivity|].
  cbn [flat_map fold_left]. now rewrite fold_left_app, IH.
Qed.

(** The geometry of one candidate: an overlap has positive length, and the
    union is at least as long. *)
Lemma overlap_bounds (start_time end_time segment_start segment_end : Q) :
  intersection_start_of start_time segment_start
  < intersection_end_of end_time segment_end ->
  0 < intersection_end_of end_time segment_end
      - intersection_start_of start_time segment_start /\
  intersection_end_of end_time segment_end
  - intersection_start_of start_time segment_start
  <= union_of start_time end_time segment_start segment_end.
Proof.
  unfold intersection_start_of, intersection_end_of, union_of. intro H.
  pose proof (Q.le_max_l start_time segment_start).
  pose proof (Q.le_min_l end_time segment_end).
  pose proof (Q.le_max_l end_time segment_end).
  pose proof (Q.le_min_l start_time segment_start).
  split; lra.
Qed.

Lemma truediv_returns (a b : Q) : ~ b == 0 -> truediv a b = Ok (a / b).
Proof.
  intro H. unfold truediv. destruct (Qeq_bool b 0) eqn:E; [|reflexivity].
  apply Qeq_bool_eq in E. contradiction.
Qed.

Lemma iou_positive (intersection union : Q) :
  0 < intersection -> intersection <= union -> 0 < intersection / union.
Proof.
  intros H1 H2. apply Qlt_shift_div_l; lra.
Qed.

Lemma visit_segment_refines (start_time end_time duration : Q)
    (layer segment_id : Z) (b : best) (t : ResolverSpec.best_so_far) :
  tracks b t ->
  exists b',
    visit_segment start_time end_time
      (duration / inject_Z (2 ^ layer)) layer segment_id b = Ok b' /\
    tracks b' (ResolverSpec.consider start_time end_time duration t
                 (layer, segment_id)).
Proof.
  intros [-> Hb]. destruct b as [bl bs bi]. cbn [best_layer best_segment best_iou] in *.
  unfold visit_segment, ResolverSpec.consider, ResolverSpec.segment_bounds,
    ResolverSpec.segment_width, ResolverSpec.segment_count, ResolverSpec.iou,
    ResolverSpec.replaces.
  cbn [best_layer best_segment best_iou].
  set (w := duration / inject_Z (2 ^ layer)).
  fold (segment_start_of segment_id w) (segment_end_of segment_id w).
  set (ss := segment_start_of segment_id w).
  set (se := segment_end_of segment_id w).
  fold (intersection_start_of start_time ss) (intersection_end_of end_time se)
       (union_of start_time end_time ss se).
  destruct (Qltb (intersection_start_of start_time ss)
              (intersection_end_of end_time se)) eqn:E.
  - apply Qltb_lt in E. destruct (overlap_bounds _ _ _ _ E) as [I U].
    rewrite truediv_returns by lra. cbn [bind].
    rewrite Qmax_pos by assumption.
    assert (Z0 : Qeq_bool (intersection_end_of end_time se
                           - intersection_start_of start_time ss) 0 = false).
    { destruct (Qeq_bool _ 0) eqn:Z0; [|reflexivity].
      apply Qeq_bool_eq in Z0. lra. }
    rewrite Z0.
    pose proof (iou_positive I U) as P.
    match goal with
    | |- context [if ?c then Ok _ else Ok _] => destruct c eqn:C
    end.
    + eexists. split; [reflexivity|]. split; [reflexivity|].
      cbn [best_iou]. lra.
    + eexists. split; [reflexivity|]. split; [reflexivity|]. assumption.
  - apply Qltb_ge in E. exists (Best bl bs bi). split; [reflexivity|].
    rewrite Qmax_nonpos by lra.
    change (Qeq_bool 0 0) with true. cbv iota.
    assert (L : Qltb bi 0 = false) by now apply Qltb_ge.
    rewrite L. change (Qle_bool 0.7 0) with false. cbn [orb andb].
    split; [reflexivity | assumption].
Qed.

Lemma visit_layer_refines (start_time end_time duration : Q) (layer : Z)
    (b : best) (t : ResolverSpec.best_so_far) :
  (0 <= layer)%Z -> tracks b t ->
  exists b',
    visit_layer start_time end_time duration layer b = Ok b' /\
    tracks b'
      (fold_left (ResolverSpec.consider start_time end_time duration)
         (map (pair layer) (ResolverSpec.segments layer)) t).
Proof.
  intros Hl Hb. unfold visit_layer.
  assert (N : ~ inject_Z (2 ^ layer) == 0).
  { change 0 with (inject_Z 0). rewrite inject_Z_injective.
    assert (0 < 2 ^ layer)%Z by (apply Z.pow_pos_nonneg; lia). lia. }
  rewrite truediv_returns by assumption. cbn [bind].
  rewrite fold_left_map.
  apply (for_each_simulates tracks
           (visit_segment start_time end_time
              (duration / inject_Z (2 ^ layer)) layer)
           (fun t segment_id =>
              ResolverSpec.consider start_time end_time duration t
                (layer, segment_id))); [|assumption].
  intros segment_id b0 t0 _ H0. now apply visit_segment_refines.
Qed.

Lemma scan_refines (start_time end_time video_duration_min : Q) :
  exists b,
    for_each (range (4 + 1))
      (visit_layer start_time end_time (video_duration_min * 60))
      (Best 0 0 0) = Ok b /\
    tracks b
      (fold_left
         (ResolverSpec.consider start_time end_time (video_duration_min * 60))
         ResolverSpec.candidates (0%Z, 0%Z, 0)).
Proof.
  unfold ResolverSpec.candidates. rewrite fold_left_flat_map.
  apply (for_each_simulates tracks
           (visit_layer start_time end_time (video_duration_min * 60))
           (fun t layer =>
              fold_left
                (ResolverSpec.consider start_time end_time
                   (video_duration_min * 60))
                (map (pair layer) (ResolverSpec.segments layer)) t)
           (range (4 + 1))).
  - intros layer b0 t0 Hin H0. apply visit_layer_refines; [|assumption].
    apply in_range in Hin. lia.
  - split; [reflexivity | discriminate].
Qed.


Lemma no_overlap_default (start_time end_time video_duration_min : Q) :
  (forall layer segment_id,
     In layer (range 5) -> In segment_id (range (2 ^ layer)) ->
     ~ overlaps start_time end_time video_duration_min layer segment_id) ->
  compute_layer_segment start_time end_time video_duration_min
  = Ok (0%Z, 0%Z).
Proof.
  intro H. unfold compute_layer_segment.
  rewrite for_each_unchanged; [reflexivity|].
  intros layer Hl. unfold visit_layer.
  assert (N : ~ inject_Z (2 ^ layer) == 0).
  { change 0 with (inject_Z 0). rewrite inject_Z_injective.
    apply in_range in Hl.
    assert (0 < 2 ^ layer)%Z by (apply Z.pow_pos_nonneg; lia). lia. }
  rewrite truediv_returns by assumption. cbn [bind].
  apply for_each_unchanged. intros segment_id Hs.
  specialize (H layer segment_id Hl Hs).
  unfold overlaps in H. unfold visit_segment.
  match goal with
  | |- (if ?c then _ else _) = _ => destruct c eqn:E
  end; [|reflexivity].
  apply Qltb_lt in E. contradiction.
Qed.

(** C8.  When no candidate segment overlaps the interval,
    [compute_layer_segment] returns (0, 0) and raises nothing; this covers
    every interval with [end <= start] and every call with duration 0. *)
Theorem compute_layer_segment_default
    (start_time end_time video_duration_min : Q) :
  ((forall layer segment_id,
      In layer (range 5) -> In segment_id (range (2 ^ layer)) ->
      ~ overlaps start_time end_time video_duration_min layer segment_id) ->
   compute_layer_segment start_time end_time video_duration_min
   = Ok (0%Z, 0%Z)) /\
  (end_time <= start_time ->
   compute_layer_segment start_time end_time video_duration_min
   = Ok (0%Z, 0%Z)) /\
  (video_duration_min == 0 ->
   compute_layer_segment start_time end_time video_duration_min
   = Ok (0%Z, 0%Z)).
Proof.
  split; [|split].
  - apply no_overlap_default.
  - intro H. apply no_overlap_default.
    intros layer segment_id _ _. unfold overlaps.
    unfold intersection_start_of, intersection_end_of.
    set (ss := segment_start_of _ _). set (se := segment_end_of _ _).
    pose proof (Q.le_max_l start_time ss).
    pose proof (Q.le_min_l end_time se). lra.
  - intro H. apply no_overlap_default.
    intros layer segment_id _ _. unfold overlaps.
    unfold intersection_start_of, intersection_end_of.
    assert (W : video_duration_min * 60 / inject_Z (2 ^ layer) == 0).
    { rewrite H. unfold Qdiv. ring. }
    assert (S0 : segment_start_of segment_id
                   (video_duration_min * 60 / inject_Z (2 ^ layer)) == 0).
    { unfold segment_start_of. rewrite W. ring. }
    assert (S1 : segment_end_of segment_id
                   (video_duration_min * 60 / inject_Z (2 ^ layer)) == 0).
    { unfold segment_end_of. rewrite W. ring. }
    set (ss := segment_start_of _ _) in *.
    set (se := segment_end_of _ _) in *.
    pose proof (Q.le_max_r start_time ss).
    pose proof (Q.le_min_r end_time se). lra.
Qed.

Lemma compute_layer_segment_default_witness :
  compute_layer_segment 19 15 1 = Ok (0%Z, 0%Z) /\
  compute_layer_segment 0 10 0 = Ok (0%Z, 0%Z).
Proof.
  split.
  - apply (proj1 (proj2 (compute_layer_segment_default 19 15 1))).
    discriminate.
  - apply (proj2 (proj2 (compute_layer_segment_default 0 10 0))).
    reflexivity.
Defined.




(** ** The specification's worked examples *)

Example resolver_half_minute :
  compute_layer_segment 0 30 1 = Ok (1%Z, 0%Z).
Proof. vm_compute. reflexivity. Qed.

Example circular_distance :
  (exists v, evaluate_grounding [lit "2"; lit "0"; lit "1"]
                                [lit "2"; lit "1"; lit "0"] = Ok v /\
             v == 0.4) /\
  (exists v, evaluate_grounding [lit "2"; lit "2"; lit "1"]
                                [lit "2"; lit "1"; lit "0"] = Ok v /\
             v == 0.4) /\
  (exists v, evaluate_grounding [lit "2"; lit "3"; lit "1"]
                                [lit "2"; lit "1"; lit "0"] = Ok v /\
             v == 0).
Proof.
  repeat split; eexists; (split; [vm_compute; reflexivity | reflexivity]).
Qed.

Example two_layers_apart :
  exists v, evaluate_grounding [lit "3"; lit "0"; lit "1"]
                               [lit "1"; lit "0"; lit "0"] = Ok v /\
            v == 0.2.
Proof. eexists. split; [vm_compute; reflexivity | reflexivity]. Qed.

Example reversed_think_tags :
  occurs think_open (lit "</think><think><grounding>1,2,3</grounding>") /\
  occurs think_close (lit "</think><think><grounding>1,2,3</grounding>") /\
  search_think (lit "</think><think><grounding>1,2,3</grounding>") = None /\
  check_format (lit "</think><think><grounding>1,2,3</grounding>") == 0.6.
Proof.
  repeat split; try reflexivity; apply contains_occurs; reflexivity.
Qed.

(* ================================================================== *)
(** * Further properties *)

(** ** [split], [strip] and [int] *)

Lemma split_length (sep : ascii) (s : str) :
  List.length (split sep s) = S (count sep s).
Proof.
  unfold count. induction s as [|c s IH]; [reflexivity|].
  cbn [split count_occ].
  destruct (Ascii.eqb c sep) eqn:E.
  - apply Ascii.eqb_eq in E. subst c.
    destruct (ascii_dec sep sep); [|contradiction]. simpl. now rewrite IH.
  - destruct (ascii_dec c sep) as [->|_];
      [now rewrite Ascii.eqb_refl in E|].
    destruct (split sep s) as [|w ws]; [discriminate|]. exact IH.
Qed.

Lemma split_plain (sep : ascii) (s : str) :
  ~ In sep s -> split sep s = [s].
Proof.
  induction s as [|c s IH]; intro H; [reflexivity|].
  cbn [split]. destruct (Ascii.eqb c sep) eqn:E.
  - apply Ascii.eqb_eq in E. subst c. exfalso. apply H. now left.
  - rewrite IH; [reflexivity|]. intro Hin. apply H. now right.
Qed.

Lemma split_at_separator (sep : ascii) (a r : str) :
  ~ In sep a -> split sep (a ++ sep :: r) = a :: split sep r.
Proof.
  induction a as [|c a IH]; intro H.
  - cbn [app split]. now rewrite Ascii.eqb_refl.
  - cbn [app split]. destruct (Ascii.eqb c sep) eqn:E.
    + apply Ascii.eqb_eq in E. subst c. exfalso. apply H. now left.
    + rewrite IH; [reflexivity|]. intro Hin. apply H. now right.
Qed.

(** A part produced by [split] has no separator in it and only characters
    of the text. *)
Lemma split_parts (sep : ascii) (s part : str) :
  In part (split sep s) ->
  ~ In sep part /\ (forall c, In c part -> In c s).
Proof.
  revert part. induction s as [|c s IH]; intros part H.
  - destruct H as [<-|[]]. split; [intros []|intros c []].
  - cbn [split] in H. destruct (Ascii.eqb c sep) eqn:E.
    + destruct H as [<-|H]; [split; [intros []|intros x []]|].
      destruct (IH _ H) as [N I]. split; [assumption|].
      intros x Hx. right. now apply I.
    + destruct (split sep s) as [|w ws] eqn:S.
      * destruct H as [<-|[]]. split.
        -- intros [->|[]]. now rewrite Ascii.eqb_refl in E.
        -- intros x [<-|[]]. now left.
      * destruct H as [<-|H].
        -- destruct (IH w (or_introl eq_refl)) as [N I]. split.
           ++ intros [->|Hin]; [now rewrite Ascii.eqb_refl in E|].
              now apply N.
           ++ intros x [<-|Hx]; [now left|]. right. now apply I.
        -- destruct (IH part (or_intror H)) as [N I]. split; [assumption|].
           intros x Hx. right. now apply I.
Qed.

Lemma drop_while_subset (f : ascii -> bool) (s : str) (c : ascii) :
  In c (drop_while f s) -> In c s.
Proof.
  induction s as [|d s IH]; [intros []|]. cbn [drop_while].
  destruct (f d); [|trivial]. intro H. right. now apply IH.
Qed.

Lemma trim_subset (f : ascii -> bool) (s : str) (c : ascii) :
  In c (trim f s) -> In c s.
Proof.
  unfold trim. intro H. apply in_rev in H.
  apply drop_while_subset in H. apply in_rev in H.
  now apply drop_while_subset in H.
Qed.

Lemma digit_of_range (c : ascii) (d : Z) :
  digit_of c = Some d -> (0 <= d <= 9)%Z.
Proof.
  unfold digit_of.
  destruct ((48 <=? N_of_ascii c)%N && (N_of_ascii c <=? 57)%N) eqn:E;
    [|discriminate].
  apply andb_true_iff in E as [L U].
  apply N.leb_le in L, U. intro H. injection H as <-. lia.
Qed.

Lemma int_digits_nonneg (n : nat) :
  forall (s : str) (acc : Z) (k : nat) (v : Z) (k' : nat),
    (List.length s <= n)%nat -> (0 <= acc)%Z ->
    int_digits s acc k = Some (v, k') -> (0 <= v)%Z.
Proof.
  induction n as [|n IH]; intros s acc k v k' Hlen Hacc H.
  - destruct s; [discriminate | simpl in Hlen; lia].
  - destruct s as [|c s]; [discriminate|]. cbn [int_digits] in H.
    destruct (digit_of c) as [d|] eqn:D; [|discriminate].
    apply digit_of_range in D.
    cbv zeta in H. destruct s as [|u s'].
    + assert (Hv : v = (10 * acc + d)%Z) by congruence. lia.
    + simpl in Hlen. destruct (Ascii.eqb u "_").
      * apply (IH s' _ _ _ _) in H; [assumption | lia | lia].
      * apply (IH (u :: s') _ _ _ _) in H; [assumption | simpl; lia | lia].
Qed.

(** Without a minus sign in the text, [int] returns no negative number. *)
Lemma int_nonneg (s : str) (z : Z) :
  int s = Ok z -> ~ In "-"%char s -> (0 <= z)%Z.
Proof.
  unfold int. intros H N.
  assert (N' : ~ In "-"%char (trim is_int_space s)).
  { intro Hin. apply N. now apply trim_subset in Hin. }
  destruct (trim is_int_space s) as [|c rest] eqn:T.
  - simpl in H. discriminate.
  - destruct (Ascii.eqb c "-") eqn:E.
    + apply Ascii.eqb_eq in E. subst c. exfalso. apply N'. now left.
    + assert (G : forall digits,
                 match int_digits digits 0 0 with
                 | Some (v, k) =>
                     if (k <=? int_max_str_digits)%nat
                     then Ok (if false then (- v)%Z else v)
                     else Raise ValueError
                 | None => Raise ValueError
                 end = Ok z -> (0 <= z)%Z).
      { intros digits G.
        destruct (int_digits digits 0 0) as [[v k]|] eqn:D; [|discriminate].
        destruct (k <=? int_max_str_digits)%nat; [|discriminate].
        injection G as <-.
        eapply int_digits_nonneg; [apply Nat.le_refl | | exact D]. lia. }
      destruct (Ascii.eqb c "+"); now apply G in H.
Qed.

(** ** [parse_time_reference] *)

Lemma unpack_two_ints_raises (fields : list str) (e : exn) :
  unpack_two_ints fields = Raise e -> e = ValueError.
Proof.
  unfold unpack_two_ints. destruct fields as [|a [|b [|c rest]]].
  - congruence.
  - destruct (int a) eqn:A; simpl; [congruence|].
    intro H. injection H as <-. now apply int_raises in A.
  - destruct (int a) eqn:A; simpl.
    + destruct (int b) eqn:B; simpl; [discriminate|].
      intro H. injection H as <-. now apply int_raises in B.
    + intro H. injection H as <-. now apply int_raises in A.
  - destruct (int a) eqn:A; simpl.
    + destruct (int b) eqn:B; simpl.
      * destruct (int c) eqn:C; simpl; [congruence|].
        intro H. injection H as <-. now apply int_raises in C.
      * intro H. injection H as <-. now apply int_raises in B.
    + intro H. injection H as <-. now apply int_raises in A.
Qed.

Lemma unpack_two_ints_returns (fields : list str) (x y : Z) :
  unpack_two_ints fields = Ok (x, y) <->
  exists a b, fields = [a; b] /\ int a = Ok x /\ int b = Ok y.
Proof.
  unfold unpack_two_ints. split.
  - destruct fields as [|a [|b [|c rest]]]; try discriminate.
    + destruct (int a); discriminate.
    + destruct (int a) as [x'|] eqn:A; [|discriminate].
      destruct (int b) as [y'|] eqn:B; [|discriminate].
      simpl. intro H. injection H as <- <-. now exists a, b.
    + destruct (int a); [|discriminate].
      destruct (int b); [|discriminate].
      simpl. destruct (int c); discriminate.
  - intros [a [b [-> [A B]]]]. now rewrite A, B.
Qed.

Lemma wrong_field_number (fields : list str) :
  List.length fields <> 2%nat -> unpack_two_ints fields = Raise ValueError.
Proof.
  intro H. destruct (unpack_two_ints fields) as [[x y]|e] eqn:E.
  - apply unpack_two_ints_returns in E as [a [b [-> _]]]. now elim H.
  - apply unpack_two_ints_raises in E. now subst e.
Qed.

(** What the function does with a text cut by exactly one [-]. *)
Lemma parse_one_dash (start end_ : str) :
  ~ In "-"%char start -> ~ In "-"%char end_ ->
  parse_time_reference (start ++ "-"%char :: end_)
  = try_except
      (bind (unpack_two_ints (split ":" start))
         (fun starts =>
            let '(start_min, start_sec) := starts in
            bind (unpack_two_ints (split ":" end_))
              (fun ends =>
                 let '(end_min, end_sec) := ends in
                 Ok ((start_min * 60 + start_sec)%Z,
                     (end_min * 60 + end_sec)%Z))))
      DatasetPrep.value_error (Ok (0, 0)%Z).
Proof.
  intros Hs He. unfold parse_time_reference.
  assert (C : contains (lit "-") (start ++ "-"%char :: end_) = true).
  { apply contains_occurs. now exists start, end_. }
  rewrite C, split_at_separator, split_plain by assumption.
  cbn [negb]. destruct (start ++ "-"%char :: end_) eqn:E; [|reflexivity].
  now destruct start.
Qed.

(** X1.  [parse_time_reference] raises nothing and both times it returns
    are non-negative: a text with a single [-] separator leaves no sign for
    [int] to read. *)
Theorem parse_time_reference_nonnegative (time_ref : str) :
  exists start_time end_time,
    parse_time_reference time_ref = Ok (start_time, end_time) /\
    (0 <= start_time)%Z /\ (0 <= end_time)%Z.
Proof.
  assert (Z0 : exists a b, Ok (0, 0)%Z = Ok (a, b) /\ (0 <= a)%Z /\ (0 <= b)%Z).
  { exists 0%Z, 0%Z. repeat split; lia. }
  unfold parse_time_reference. destruct time_ref as [|c0 s0]; [exact Z0|].
  set (s := c0 :: s0).
  destruct (negb (contains (lit "-") s)); [exact Z0|].
  destruct (split "-" s) as [|start [|end_ [|x l]]] eqn:S; try exact Z0.
  assert (Hs : In start (split "-" s)) by (rewrite S; now left).
  assert (He : In end_ (split "-" s)) by (rewrite S; right; now left).
  apply split_parts in Hs as [Ns _]. apply split_parts in He as [Ne _].
  destruct (unpack_two_ints (split ":" start)) as [[m1 s1]|e1] eqn:U1;
    [|apply unpack_two_ints_raises in U1; subst e1; exact Z0].
  destruct (unpack_two_ints (split ":" end_)) as [[m2 s2]|e2] eqn:U2;
    [|apply unpack_two_ints_raises in U2; subst e2; exact Z0].
  apply unpack_two_ints_returns in U1 as [a1 [b1 [F1 [A1 B1]]]].
  apply unpack_two_ints_returns in U2 as [a2 [b2 [F2 [A2 B2]]]].
  assert (P : forall part field z,
             ~ In "-"%char part -> In field (split ":" part) ->
             int field = Ok z -> (0 <= z)%Z).
  { intros part field z Np Hf Hz. apply split_parts in Hf as [_ I].
    eapply int_nonneg; [exact Hz|]. intro Hin. apply Np. now apply I. }
  exists (m1 * 60 + s1)%Z, (m2 * 60 + s2)%Z. split; [reflexivity|].
  assert (0 <= m1)%Z by (apply (P start a1); [assumption | rewrite F1; now left | assumption]).
  assert (0 <= s1)%Z by (apply (P start b1); [assumption | rewrite F1; right; now left | assumption]).
  assert (0 <= m2)%Z by (apply (P end_ a2); [assumption | rewrite F2; now left | assumption]).
  assert (0 <= s2)%Z by (apply (P end_ b2); [assumption | rewrite F2; right; now left | assumption]).
  lia.
Qed.

(** X2.  [parse_time_reference] answers (0, 0) unless the text has exactly
    one [-], and also when either side of that [-] does not have exactly one
    [:]. *)
Theorem parse_time_reference_default :
  (forall time_ref : str,
     count "-" time_ref <> 1%nat ->
     parse_time_reference time_ref = Ok (0, 0)%Z) /\
  (forall start end_ : str,
     count ":" start <> 1%nat \/ count ":" end_ <> 1%nat ->
     parse_time_reference (start ++ "-"%char :: end_) = Ok (0, 0)%Z).
Proof.
  assert (A : forall time_ref : str,
             count "-" time_ref <> 1%nat ->
             parse_time_reference time_ref = Ok (0, 0)%Z).
  { intros time_ref H. unfold parse_time_reference.
    destruct time_ref as [|c0 s0]; [reflexivity|]. set (s := c0 :: s0) in *.
    destruct (negb (contains (lit "-") s)); [reflexivity|].
    pose proof (split_length "-" s) as L.
    destruct (split "-" s) as [|start [|end_ [|x l]]]; try reflexivity.
    cbn [List.length] in L. lia. }
  split; [exact A|].
  intros start end_ H.
  destruct (in_dec ascii_dec "-"%char start) as [Is|Ns];
    [|destruct (in_dec ascii_dec "-"%char end_) as [Ie|Ne]].
  - apply A. unfold count. rewrite count_occ_app. cbn [count_occ].
    destruct (ascii_dec "-" "-"); [|contradiction].
    apply (count_occ_In ascii_dec) in Is. lia.
  - apply A. unfold count. rewrite count_occ_app. cbn [count_occ].
    destruct (ascii_dec "-" "-"); [|contradiction].
    apply (count_occ_In ascii_dec) in Ie. lia.
  - rewrite parse_one_dash by assumption.
    destruct H as [H|H].
    + rewrite wrong_field_number; [reflexivity|].
      rewrite split_length. lia.
    + destruct (unpack_two_ints (split ":" start)) as [[m1 s1]|e1] eqn:U1.
      * cbn [bind]. rewrite wrong_field_number; [reflexivity|].
        rewrite split_length. lia.
      * apply unpack_two_ints_raises in U1. now subst e1.
Qed.

Lemma parse_time_reference_default_witness :
  parse_time_reference (lit "-1:00-2:00") = Ok (0, 0)%Z /\
  parse_time_reference (lit "75" ++ "-"%char :: lit "1:30") = Ok (0, 0)%Z.
Proof.
  split.
  - apply (proj1 parse_time_reference_default (lit "-1:00-2:00")).
    vm_compute. discriminate.
  - apply (proj2 parse_time_reference_default (lit "75") (lit "1:30")).
    left. vm_compute. discriminate.
Defined.

(** X3.  On a text [a:b-c:d] whose four fields hold no [-] or [:] and read
    as the integers m1, s1, m2, s2, [parse_time_reference] returns
    (60*m1 + s1, 60*m2 + s2). *)
Theorem parse_time_reference_well_formed
    (a b c d : str) (m1 s1 m2 s2 : Z) :
  plain_field a -> plain_field b -> plain_field c -> plain_field d ->
  int a = Ok m1 -> int b = Ok s1 -> int c = Ok m2 -> int d = Ok s2 ->
  parse_time_reference
    ((a ++ ":"%char :: b) ++ "-"%char :: (c ++ ":"%char :: d))
  = Ok ((m1 * 60 + s1)%Z, (m2 * 60 + s2)%Z).
Proof.
  intros [Da Ca] [Db Cb] [Dc Cc] [Dd Cd] A B C D.
  assert (N : forall x y, ~ In "-"%char x -> ~ In "-"%char y ->
                          ~ In "-"%char (x ++ ":"%char :: y)).
  { intros x y Hx Hy Hin. apply in_app_or in Hin as [Hin|[Hin|Hin]];
      [now apply Hx | discriminate | now apply Hy]. }
  rewrite parse_one_dash by now apply N.
  rewrite !split_at_separator, !split_plain by assumption.
  assert (U1 : unpack_two_ints [a; b] = Ok (m1, s1)).
  { apply unpack_two_ints_returns. now exists a, b. }
  assert (U2 : unpack_two_ints [c; d] = Ok (m2, s2)).
  { apply unpack_two_ints_returns. now exists c, d. }
  rewrite U1. cbn [bind]. rewrite U2. reflexivity.
Qed.

Lemma parse_time_reference_well_formed_witness :
  parse_time_reference
    ((lit "01" ++ ":"%char :: lit "05") ++ "-"%char
     :: (lit " 2" ++ ":"%char :: lit "00 "))
  = Ok ((1 * 60 + 5)%Z, (2 * 60 + 0)%Z).
Proof.
  apply (@parse_time_reference_well_formed
           (lit "01") (lit "05") (lit " 2") (lit "00 ") 1 5 2 0);
    try reflexivity;
    (split; intro H; vm_compute in H; intuition discriminate).
Defined.

(** ** [compute_layer_segment]: what it returns *)





(** ** [compute_layer_segment]: scaling *)

Lemma Qltb_compat (x x' y y' : Q) :
  x == x' -> y == y' -> Qltb x y = Qltb x' y'.
Proof. intros Hx Hy. unfold Qltb. now rewrite Hx, Hy. Qed.

Lemma Qmax_scale (k a b : Q) : 0 < k -> Qmax (k * a) (k * b) == k * Qmax a b.
Proof.
  intro Hk. destruct (Q.max_spec a b) as [[H E]|[H E]]; rewrite E.
  - apply Q.max_r. apply Qmult_le_l; [assumption | now apply Qlt_le_weak].
  - apply Q.max_l. now apply Qmult_le_l.
Qed.

Lemma Qmin_scale (k a b : Q) : 0 < k -> Qmin (k * a) (k * b) == k * Qmin a b.
Proof.
  intro Hk. destruct (Q.min_spec a b) as [[H E]|[H E]]; rewrite E.
  - apply Q.min_l. apply Qmult_le_l; [assumption | now apply Qlt_le_weak].
  - apply Q.min_r. now apply Qmult_le_l.
Qed.

Lemma fold_left_related {A T : Type} (R : T -> T -> Prop)
    (f f' : T -> A -> T) (xs : list A) :
  (forall x t t', R t t' -> R (f t x) (f' t' x)) ->
  forall t t', R t t' -> R (fold_left f xs t) (fold_left f' xs t').
Proof.
  intro H. induction xs as [|x xs IH]; intros t t' Ht; [assumption|].
  cbn [fold_left]. apply IH. now apply H.
Qed.

(** The code's result read off the fold over the candidates. *)
Lemma compute_layer_segment_as_fold
    (start_time end_time video_duration_min : Q) :
  compute_layer_segment start_time end_time video_duration_min
  = Ok (let t := fold_left
                   (ResolverSpec.consider start_time end_time
                      (video_duration_min * 60))
                   ResolverSpec.candidates (0%Z, 0%Z, 0) in
        (fst (fst t), snd (fst t))).
Proof.
  destruct (scan_refines start_time end_time video_duration_min)
    as [b [E [T _]]].
  unfold compute_layer_segment. rewrite E, T. reflexivity.
Qed.

Lemma iou_scaled (k s e ss se s' e' ss' se' : Q) :
  0 < k -> s' == k * s -> e' == k * e -> ss' == k * ss -> se' == k * se ->
  ResolverSpec.iou s' e' ss' se' == ResolverSpec.iou s e ss se.
Proof.
  intros Hk Hs He Hss Hse. unfold ResolverSpec.iou.
  set (x := Qmin e se - Qmax s ss).
  set (u := Qmax e se - Qmin s ss).
  assert (X : Qmin e' se' - Qmax s' ss' == k * x).
  { rewrite Hs, He, Hss, Hse, Qmax_scale, Qmin_scale by assumption.
    unfold x. ring. }
  assert (U : Qmax e' se' - Qmin s' ss' == k * u).
  { rewrite Hs, He, Hss, Hse, Qmax_scale, Qmin_scale by assumption.
    unfold u. ring. }
  assert (I : Qmax 0 (Qmin e' se' - Qmax s' ss') == k * Qmax 0 x).
  { rewrite X, <- Qmax_scale by assumption.
    now setoid_replace (k * 0) with 0 by ring. }
  assert (C : Qeq_bool (Qmax 0 (Qmin e' se' - Qmax s' ss')) 0
              = Qeq_bool (Qmax 0 x) 0).
  { rewrite I. destruct (Qeq_bool (Qmax 0 x) 0) eqn:Z0.
    - apply Qeq_bool_eq in Z0. apply Qeq_bool_iff. rewrite Z0. ring.
    - apply Qeq_bool_neq in Z0.
      destruct (Qeq_bool (k * Qmax 0 x) 0) eqn:Z1; [|reflexivity].
      apply Qeq_bool_eq in Z1. exfalso. apply Z0.
      apply Qmult_integral in Z1 as [Z1|Z1]; [|assumption].
      rewrite Z1 in Hk. now apply Qlt_irrefl in Hk. }
  cbv zeta. fold x u. rewrite C.
  destruct (Qeq_bool (Qmax 0 x) 0); [reflexivity|].
  rewrite I, U.
  destruct (Qeq_dec u 0) as [U0|U0].
  - rewrite U0. unfold Qdiv.
    setoid_replace (k * 0) with 0 by ring. change (/ 0) with 0. ring.
  - field. split; [assumption|]. intro K. rewrite K in Hk.
    now apply Qlt_irrefl in Hk.
Qed.

Lemma consider_scaled (k s e d s' e' d' : Q)
    (t t' : ResolverSpec.best_so_far) (candidate : Z * Z) :
  0 < k -> s' == k * s -> e' == k * e -> d' == k * d ->
  same_choice t t' ->
  same_choice (ResolverSpec.consider s e d t candidate)
              (ResolverSpec.consider s' e' d' t' candidate).
Proof.
  intros Hk Hs He Hd [L [S I]].
  destruct t as [[bl bs] bi], t' as [[bl' bs'] bi'], candidate as [layer seg].
  cbn [fst snd] in L, S, I. subst bl' bs'.
  unfold ResolverSpec.consider, ResolverSpec.segment_bounds,
    ResolverSpec.segment_width, ResolverSpec.replaces.
  set (n := inject_Z (ResolverSpec.segment_count layer)).
  assert (E : ResolverSpec.iou s' e' (inject_Z seg * (d' / n))
                (inject_Z (seg + 1) * (d' / n))
              == ResolverSpec.iou s e (inject_Z seg * (d / n))
                   (inject_Z (seg + 1) * (d / n))).
  { apply iou_scaled with k; try assumption;
      rewrite Hd; unfold Qdiv; ring. }
  cbv beta iota zeta. fold n.
  set (i' := ResolverSpec.iou s' e' _ _) in *.
  set (i0 := ResolverSpec.iou s e _ _) in *.
  assert (C1 : Qltb bi' i' = Qltb bi i0).
  { apply Qltb_compat; [now symmetry | exact E]. }
  assert (C2 : Qle_bool 0.7 i' = Qle_bool 0.7 i0) by now rewrite E.
  rewrite C1, C2.
  destruct (_ || _); repeat split; cbn [fst snd]; try assumption.
  now symmetry.
Qed.

Lemma scaled_inputs
    (k start_time end_time video_duration_min start' end' duration' : Q) :
  0 < k ->
  start' == k * start_time -> end' == k * end_time ->
  duration' == k * video_duration_min ->
  compute_layer_segment start' end' duration'
  = compute_layer_segment start_time end_time video_duration_min.
Proof.
  intros Hk Hs He Hd. rewrite !compute_layer_segment_as_fold.
  pose proof (@fold_left_related _ _ same_choice
                (ResolverSpec.consider start_time end_time
                   (video_duration_min * 60))
                (ResolverSpec.consider start' end' (duration' * 60))
                ResolverSpec.candidates) as F.
  destruct (F (fun c t t' H =>
                 @consider_scaled k start_time end_time
                   (video_duration_min * 60) start' end' (duration' * 60)
                   t t' c Hk Hs He
                   ltac:(rewrite Hd; ring) H)
              (0%Z, 0%Z, 0) (0%Z, 0%Z, 0)) as [L [S _]].
  - repeat split; reflexivity.
  - cbv zeta. now rewrite L, S.
Qed.



(** ** [compute_layer_segment]: intervals that are segments, and intervals
    outside the video *)

Lemma valid_pair_candidate (layer segment_id : Z) :
  valid_pair layer segment_id ->
  In (layer, segment_id) ResolverSpec.candidates.
Proof.
  intros [Hl Hs]. unfold ResolverSpec.candidates.
  apply in_flat_map. exists layer. split.
  - unfold ResolverSpec.layers.
    assert (layer = 0 \/ layer = 1 \/ layer = 2 \/ layer = 3 \/ layer = 4)%Z
      as [->|[->|[->|[->| ->]]]] by lia; simpl; auto 6.
  - apply in_map. change (ResolverSpec.segments layer)
      with (range (2 ^ layer)). now apply in_range.
Qed.

(** The 31 segments of a one-minute video resolve to themselves. *)
Lemma unit_segments_resolve (layer segment_id : Z) :
  valid_pair layer segment_id ->
  compute_layer_segment
    (inject_Z segment_id * (60 / inject_Z (2 ^ layer)))
    (inject_Z (segment_id + 1) * (60 / inject_Z (2 ^ layer))) 1
  = Ok (layer, segment_id).
Proof.
  intro V. apply valid_pair_candidate in V.
  assert (A : forallb
                (fun c : Z * Z =>
                   match compute_layer_segment
                           (inject_Z (snd c) * (60 / inject_Z (2 ^ fst c)))
                           (inject_Z (snd c + 1) * (60 / inject_Z (2 ^ fst c)))
                           1 with
                   | Ok (l, i) => (l =? fst c)%Z && (i =? snd c)%Z
                   | Raise _ => false
                   end) ResolverSpec.candidates = true)
    by (vm_compute; reflexivity).
  rewrite forallb_forall in A. specialize (A _ V). cbn [fst snd] in A.
  destruct (compute_layer_segment _ _ 1) as [[l i]|e]; [|discriminate].
  apply andb_true_iff in A as [A1 A2].
  apply Z.eqb_eq in A1, A2. now subst.
Qed.

(** X6.  For a video of positive duration, the interval that is exactly
    segment i of layer L (from i*w to (i+1)*w seconds, w the duration in
    seconds over 2^L) resolves to (L, i), for every layer 0..4 and every
    segment of it. *)
Theorem segment_resolves_to_itself
    (video_duration_min : Q) (layer segment_id : Z) :
  0 < video_duration_min ->
  (0 <= layer <= 4)%Z -> (0 <= segment_id < 2 ^ layer)%Z ->
  compute_layer_segment
    (inject_Z segment_id * (video_duration_min * 60 / inject_Z (2 ^ layer)))
    (inject_Z (segment_id + 1)
     * (video_duration_min * 60 / inject_Z (2 ^ layer)))
    video_duration_min
  = Ok (layer, segment_id).
Proof.
  intros Hd Hl Hs.
  rewrite <- (@unit_segments_resolve layer segment_id) by (split; assumption).
  apply scaled_inputs with video_duration_min; try assumption;
    unfold Qdiv; ring.
Qed.

Lemma segment_resolves_to_itself_witness :
  compute_layer_segment
    (inject_Z 5 * ((7 # 2) * 60 / inject_Z (2 ^ 3)))
    (inject_Z (5 + 1) * ((7 # 2) * 60 / inject_Z (2 ^ 3))) (7 # 2)
  = Ok (3%Z, 5%Z).
Proof.
  apply (@segment_resolves_to_itself (7 # 2) 3 5).
  - reflexivity.
  - lia.
  - vm_compute. split; [discriminate | reflexivity].
Defined.

(** X7.  [compute_layer_segment] returns (0, 0) for a negative duration,
    and, for a duration that is not negative, for every interval that ends
    at or before 0 or starts at or after the end of the video. *)
Theorem compute_layer_segment_outside
    (start_time end_time video_duration_min : Q) :
  (video_duration_min < 0 ->
   compute_layer_segment start_time end_time video_duration_min
   = Ok (0%Z, 0%Z)) /\
  (0 <= video_duration_min -> end_time <= 0 ->
   compute_layer_segment start_time end_time video_duration_min
   = Ok (0%Z, 0%Z)) /\
  (0 <= video_duration_min -> video_duration_min * 60 <= start_time ->
   compute_layer_segment start_time end_time video_duration_min
   = Ok (0%Z, 0%Z)).
Proof.
  assert (W : forall layer, In layer (range 5) ->
                0 < / inject_Z (2 ^ layer)).
  { intros layer H. apply in_range in H. apply Qinv_lt_0_compat.
    change 0 with (inject_Z 0). rewrite <- Zlt_Qlt.
    apply Z.pow_pos_nonneg; lia. }
  assert (G : forall segment_id w,
                segment_end_of segment_id w
                == segment_start_of segment_id w + w).
  { intros. unfold segment_end_of, segment_start_of.
    rewrite inject_Z_plus. ring. }
  split; [|split].
  - intro Hd. apply no_overlap_default.
    intros layer segment_id Hl Hs. unfold overlaps. cbv zeta.
    set (w := video_duration_min * 60 / inject_Z (2 ^ layer)).
    assert (Hw : w < 0).
    { unfold w, Qdiv. specialize (W layer Hl).
      setoid_replace (video_duration_min * 60 * / inject_Z (2 ^ layer))
        with (- ((- video_duration_min * 60) * / inject_Z (2 ^ layer)))
        by ring.
      assert (0 < (- video_duration_min * 60) * / inject_Z (2 ^ layer)).
      { apply Qmult_lt_0_compat; [lra | assumption]. }
      lra. }
    pose proof (G segment_id w).
    unfold intersection_start_of, intersection_end_of.
    pose proof (Q.le_max_r start_time (segment_start_of segment_id w)).
    pose proof (Q.le_min_r end_time (segment_end_of segment_id w)). lra.
  - intros Hd He. apply no_overlap_default.
    intros layer segment_id Hl Hs. unfold overlaps. cbv zeta.
    set (w := video_duration_min * 60 / inject_Z (2 ^ layer)).
    assert (Hw : 0 <= w).
    { unfold w, Qdiv. apply Qmult_le_0_compat; [lra|].
      apply Qlt_le_weak. now apply W. }
    assert (S0 : 0 <= segment_start_of segment_id w).
    { unfold segment_start_of. apply Qmult_le_0_compat; [|assumption].
      change 0 with (inject_Z 0). rewrite <- Zle_Qle.
      apply in_range in Hs. lia. }
    unfold intersection_start_of, intersection_end_of.
    pose proof (Q.le_max_r start_time (segment_start_of segment_id w)).
    pose proof (Q.le_min_l end_time (segment_end_of segment_id w)). lra.
  - intros Hd Hs0. apply no_overlap_default.
    intros layer segment_id Hl Hs. unfold overlaps. cbv zeta.
    set (w := video_duration_min * 60 / inject_Z (2 ^ layer)).
    assert (Hw : 0 <= w).
    { unfold w, Qdiv. apply Qmult_le_0_compat; [lra|].
      apply Qlt_le_weak. now apply W. }
    assert (S1 : segment_end_of segment_id w <= video_duration_min * 60).
    { unfold segment_end_of.
      apply Qle_trans with (inject_Z (2 ^ layer) * w).
      - apply Qmult_le_compat_r; [|assumption].
        rewrite <- Zle_Qle. apply in_range in Hs. lia.
      - unfold w. apply Qle_lteq. right. field.
        specialize (W layer Hl). intro Z0. rewrite Z0 in W.
        now apply Qlt_irrefl in W. }
    unfold intersection_start_of, intersection_end_of.
    pose proof (Q.le_max_l start_time (segment_start_of segment_id w)).
    pose proof (Q.le_min_r end_time (segment_end_of segment_id w)). lra.
Qed.

Lemma compute_layer_segment_outside_witness :
  compute_layer_segment 0 30 (-1) = Ok (0%Z, 0%Z) /\
  compute_layer_segment (-20) (-5) 1 = Ok (0%Z, 0%Z) /\
  compute_layer_segment 60 75 1 = Ok (0%Z, 0%Z).
Proof.
  split; [|split].
  - apply (proj1 (compute_layer_segment_outside 0 30 (-1))). reflexivity.
  - apply (proj1 (proj2 (compute_layer_segment_outside (-20) (-5) 1)));
      discriminate.
  - apply (proj2 (proj2 (compute_layer_segment_outside 60 75 1)));
      discriminate.
Defined.

(** ** The generated annotation and the scorer *)

(** The annotation of each of the 31 (layer, segment) pairs is read back by
    the scorer's own extraction. *)
Lemma ground_truth_parses (layer segment_id : Z) :
  valid_pair layer segment_id ->
  exists content a b z,
    search_grounding (ground_truth_of layer segment_id) = Some content /\
    map strip (split "," content) = [a; b; z] /\
    int a = Ok layer /\ int b = Ok segment_id /\ int z = Ok 0%Z.
Proof.
  intro V. apply valid_pair_candidate in V.
  assert (A : forallb
                (fun c : Z * Z =>
                   match search_grounding (ground_truth_of (fst c) (snd c)) with
                   | Some content =>
                       match map strip (split "," content) with
                       | [a; b; z] =>
                           match int a, int b, int z with
                           | Ok x, Ok y, Ok r =>
                               (x =? fst c)%Z && (y =? snd c)%Z && (r =? 0)%Z
                           | _, _, _ => false
                           end
                       | _ => false
                       end
                   | None => false
                   end) ResolverSpec.candidates = true)
    by (vm_compute; reflexivity).
  rewrite forallb_forall in A. specialize (A _ V). cbn [fst snd] in A.
  destruct (search_grounding (ground_truth_of layer segment_id))
    as [content|] eqn:Es; [|discriminate].
  destruct (map strip (split "," content)) as [|a [|b [|z [|x l]]]] eqn:Em;
    try discriminate.
  destruct (int a) as [x|] eqn:Ea; [|discriminate].
  destruct (int b) as [y|] eqn:Eb; [|discriminate].
  destruct (int z) as [r|] eqn:Ez; [|discriminate].
  apply andb_true_iff in A as [A A3]. apply andb_true_iff in A as [A1 A2].
  apply Z.eqb_eq in A1, A2, A3. subst x y r.
  exists content, a, b, z. repeat split; assumption || reflexivity.
Qed.


Lemma grounding_found_format (predict_str content : str) :
  search_grounding predict_str = Some content ->
  0.5 <= check_format predict_str <= 1.
Proof.
  intro H. split; [|apply check_format_range].
  apply search_grounding_sound in H as [_ [a [b Hs]]].
  assert (O : contains grounding_open predict_str = true).
  { apply contains_occurs. exists a, (content ++ grounding_close ++ b).
    exact Hs. }
  assert (C : contains grounding_close predict_str = true).
  { apply contains_occurs. exists (a ++ grounding_open ++ content), b.
    rewrite Hs, <- !app_assoc. reflexivity. }
  unfold check_format. rewrite O, C.
  destruct (contains think_open predict_str && contains think_close predict_str);
    cbn [andb]; cbv iota.
  - destruct (search_think predict_str) as [t|]; [|discriminate].
    pose proof (thinking_quality_range (len_nonneg (strip t))) as [L U]. lra.
  - apply Qle_refl.
Qed.

(** X9.  Scorer and generated annotation together: a prediction whose
    extracted fields name the layer and the segment of the annotation
    scores 0.3*format_score + 0.5 + 0.2*sampling_score, between 0.65 and 1;
    the annotation scored against itself gets 0.65, its placeholder rate 0
    earning no sampling credit and its bare grounding tag half the format
    credit. *)
Theorem matching_prediction_score :
  (forall (predict_str content p0 p1 p2 : str) (layer segment_id : Z),
     valid_pair layer segment_id ->
     search_grounding predict_str = Some content ->
     map strip (split "," content) = [p0; p1; p2] ->
     int p0 = Ok layer -> int p1 = Ok segment_id ->
     exists v sampling_score,
       evaluate_sampling_rate p2 = Ok sampling_score /\
       video_grounding predict_str (ground_truth_of layer segment_id) = Ok v /\
       v == 0.3 * check_format predict_str + 0.5 + 0.2 * sampling_score /\
       0.65 <= v <= 1) /\
  (forall layer segment_id : Z,
     valid_pair layer segment_id ->
     exists v,
       video_grounding (ground_truth_of layer segment_id)
                       (ground_truth_of layer segment_id) = Ok v /\
       v == 0.65).
Proof.
  split.
  - intros p c p0 p1 p2 layer segment_id V S P I0 I1.
    destruct (ground_truth_parses V) as [gc [a [b [z [Gs [Gp [Ga [Gb _]]]]]]]].
    pose proof (grounding_found_format _ S) as [F0 F1].
    assert (F : 0 < check_format p) by lra.
    assert (E : evaluate_grounding [p0; p1; p2] [a; b; z] = Ok 1).
    { eapply exact_match; try eassumption; reflexivity. }
    destruct (@weighted_when_scored p (ground_truth_of layer segment_id)
                c gc F S Gs p0 p1 p2 a b z P Gp 1 E) as [ss [Es Ev]].
    destruct (evaluate_sampling_rate_returns p2) as [ss' [Es' [S0 S1]]].
    assert (ss' = ss) by congruence. subst ss'.
    eexists. exists ss. split; [exact Es|]. split; [exact Ev|].
    split; [ring | split; lra].
  - intros layer segment_id V. apply valid_pair_candidate in V.
    assert (A : forallb
                  (fun c : Z * Z =>
                     match video_grounding (ground_truth_of (fst c) (snd c))
                             (ground_truth_of (fst c) (snd c)) with
                     | Ok v => Qeq_bool v 0.65
                     | Raise _ => false
                     end) ResolverSpec.candidates = true)
      by (vm_compute; reflexivity).
    rewrite forallb_forall in A. specialize (A _ V). cbn [fst snd] in A.
    destruct (video_grounding _ _) as [v|]; [|discriminate].
    exists v. split; [reflexivity|]. now apply Qeq_bool_eq.
Qed.

Lemma matching_prediction_score_witness :
  exists v sampling_score,
    evaluate_sampling_rate (lit "2") = Ok sampling_score /\
    video_grounding (lit "<think>it is early</think><grounding>3, 5, 2</grounding>")
                    (ground_truth_of 3 5) = Ok v /\
    v == 0.3 * check_format
               (lit "<think>it is early</think><grounding>3, 5, 2</grounding>")
         + 0.5 + 0.2 * sampling_score /\
    0.65 <= v <= 1.
Proof.
  apply (proj1 matching_prediction_score
           (lit "<think>it is early</think><grounding>3, 5, 2</grounding>")
           (lit "3, 5, 2") (lit "3") (lit "5") (lit "2") 3%Z 5%Z);
    try reflexivity.
  split; [lia|]. vm_compute. split; [discriminate | reflexivity].
Defined.

(** ** Scores and their ranges *)

(** X10.  [check_format] lies in [0, 1] for every text; it is 0 exactly
    when neither tag pair is present and at least 0.3 otherwise; and a
    prediction with neither tag pair makes [video_grounding] return 0.0
    whatever the ground truth. *)
Theorem format_score_gate (predict_str : str) :
  let thinking :=
    occurs think_open predict_str /\ occurs think_close predict_str in
  let grounding :=
    occurs grounding_open predict_str /\ occurs grounding_close predict_str in
  0 <= check_format predict_str <= 1 /\
  (check_format predict_str == 0 <-> ~ thinking /\ ~ grounding) /\
  (thinking \/ grounding -> 0.3 <= check_format predict_str) /\
  (~ thinking -> ~ grounding ->
   forall ground_truth,
     video_grounding predict_str ground_truth = Ok 0).
Proof.
  intros thinking grounding.
  assert (Ht : contains think_open predict_str
               && contains think_close predict_str = true <-> thinking).
  { rewrite andb_true_iff, !contains_occurs. reflexivity. }
  assert (Hg : contains grounding_open predict_str
               && contains grounding_close predict_str = true <-> grounding).
  { rewrite andb_true_iff, !contains_occurs. reflexivity. }
  split; [apply check_format_range|].
  unfold video_grounding, check_format.
  destruct (contains think_open predict_str
            && contains think_close predict_str) eqn:T;
    destruct (contains grounding_open predict_str
              && contains grounding_close predict_str) eqn:G;
    cbn [andb]; cbv iota.
  - assert (Q : 0.6 <= 0.6 + 0.4 * match search_think predict_str with
                                    | Some group1 =>
                                        Qmin 1 (inject_Z (len (strip group1)) / 200)
                                    | None => 0
                                    end).
    { destruct (search_think predict_str) as [t|]; [|discriminate].
      pose proof (thinking_quality_range (len_nonneg (strip t))) as [L U].
      lra. }
    split; [|split].
    + split; [intro Z0; lra|].
      intros [N _]. exfalso. apply N, Ht. reflexivity.
    + intros _. lra.
    + intros N. exfalso. apply N, Ht. reflexivity.
  - split; [|split].
    + split; [discriminate|]. intros [N _]. exfalso. apply N, Ht. reflexivity.
    + intros _. apply Qle_refl.
    + intros N. exfalso. apply N, Ht. reflexivity.
  - split; [|split].
    + split; [discriminate|]. intros [_ N]. exfalso. apply N, Hg. reflexivity.
    + intros _. discriminate.
    + intros _ N. exfalso. apply N, Hg. reflexivity.
  - split; [|split].
    + split; [|reflexivity]. intros _.
      split; intro H; [apply Ht in H | apply Hg in H]; discriminate.
    + intros [H|H]; [apply Ht in H | apply Hg in H]; discriminate.
    + intros _ _ g. reflexivity.
Qed.

Lemma format_score_gate_witness :
  0 <= check_format (lit "layer 2, segment 1") <= 1 /\
  video_grounding (lit "layer 2, segment 1") (lit "<grounding>2, 1, 0</grounding>")
  = Ok 0.
Proof.
  split.
  - exact (proj1 (format_score_gate (lit "layer 2, segment 1"))).
  - apply (proj2 (proj2 (proj2 (format_score_gate (lit "layer 2, segment 1"))))).
    + intros [H _]. apply contains_occurs in H. discriminate.
    + intros [H _]. apply contains_occurs in H. discriminate.
Defined.

Lemma float_of_value (n : num) (y : Q) : float_of n = Ok y -> y = value n.
Proof.
  destruct n as [z|q]; simpl.
  - destruct (float_overflow <=? Z.abs z)%Z; [discriminate|].
    intro H. now injection H as <-.
  - intro H. now injection H as <-.
Qed.

Lemma clamped_score_nonneg (c : Q) (rest score : num) :
  0 <= c -> num_mul (Float c) (max2 (Int 0) rest) = Ok score ->
  0 <= value score.
Proof.
  intros Hc. unfold num_mul. cbn [float_of bind].
  destruct (float_of (max2 (Int 0) rest)) as [y|] eqn:F; [|discriminate].
  cbn [bind]. intro H. injection H as <-. cbn [value].
  apply float_of_value in F. subst y.
  apply Qmult_le_0_compat; [assumption|].
  rewrite max2_value. apply Q.le_max_l.
Qed.

(** Whatever it returns, [evaluate_grounding] returns no negative score. *)
Lemma evaluate_grounding_nonneg (pred_parts gt_parts : list str) (v : Q) :
  evaluate_grounding pred_parts gt_parts = Ok v -> 0 <= v.
Proof.
  unfold evaluate_grounding, try_except.
  match goal with
  | |- match ?body with _ => _ end = _ -> _ => destruct body as [v'|e] eqn:B
  end.
  - intro H. injection H as <-.
    repeat match type of B with
           | bind ?m _ = _ =>
               let E := fresh "E" in
               destruct m eqn:E; cbn [bind] in B; [|discriminate]
           | (if ?c then _ else _) = _ => destruct c
           end;
      injection B as <-; try discriminate;
      eapply clamped_score_nonneg; try eassumption; discriminate.
  - destruct (value_or_index_error e); [|discriminate].
    intro H. injection H as <-. discriminate.
Qed.

(** X11.  [video_grounding] raises nothing and returns no negative score,
    for every pair of texts. *)
Theorem video_grounding_nonnegative (predict_str ground_truth : str) :
  exists v, video_grounding predict_str ground_truth = Ok v /\ 0 <= v.
Proof.
  pose proof (check_format_range predict_str) as [F0 F1].
  unfold video_grounding.
  destruct (Qeq_bool (check_format predict_str) 0);
    [exists 0; split; [reflexivity | discriminate]|].
  assert (D : exists v, Ok (0.1 * check_format predict_str) = Ok v /\ 0 <= v).
  { eexists. split; [reflexivity | lra]. }
  destruct (search_grounding predict_str) as [pc|]; [|exact D].
  destruct (search_grounding ground_truth) as [gc|]; [|exact D].
  destruct (negb _ || negb _).
  - eexists. split; [reflexivity | lra].
  - destruct (evaluate_grounding _ _) as [gs|e] eqn:E; [|exact D].
    apply evaluate_grounding_nonneg in E. cbn [bind].
    destruct (index _ 2) as [p2|e]; [|exact D]. cbn [bind].
    destruct (evaluate_sampling_rate_returns p2) as [ss [Es [S0 S1]]].
    rewrite Es. cbn [bind try_except].
    eexists. split; [reflexivity | lra].
Qed.

Lemma Qquarter (x : Q) : x / 4 == x * (1 # 4).
Proof. reflexivity. Qed.

(** The circular segment score for two different segments of one layer. *)
Lemma circular_score_bound (a gl : Z) :
  (0 <= gl)%Z -> (1 <= a < 2 ^ gl)%Z ->
  0 <= 0.8 * Qmax 0 (1 - Qmin (inject_Z a) (2 ^ gl - inject_Z a)
                         / (2 ^ gl / 2)) < 0.8.
Proof.
  intros Hgl Ha.
  assert (A1 : 1 <= inject_Z a).
  { change 1 with (inject_Z 1). rewrite <- Zle_Qle. lia. }
  assert (A2 : inject_Z a <= 2 ^ gl - 1).
  { apply Qle_trans with (inject_Z (2 ^ gl - 1)); [rewrite <- Zle_Qle; lia|].
    unfold Z.sub. rewrite inject_Z_plus, Zpower_Qpower by assumption.
    apply Qle_refl. }
  rewrite Qhalf.
  set (A := inject_Z a) in *. set (N := 2 ^ gl) in *. clearbody A N.
  set (d := Qmin A (N - A)).
  assert (D : 1 <= d /\ d <= N * (1 # 2)).
  { unfold d. destruct (Q.min_spec A (N - A)) as [[H E]|[H E]];
      rewrite E; split; lra. }
  destruct D as [D1 D2].
  set (h := N * (1 # 2)) in *.
  assert (Hh : 0 < h) by lra.
  assert (X1 : d / h <= 1).
  { apply Qle_shift_div_r; [assumption | lra]. }
  assert (X0 : 0 < d / h).
  { apply Qlt_shift_div_l; [assumption | lra]. }
  set (x := d / h) in *. clearbody x.
  destruct (Q.max_spec 0 (1 - x)) as [[H E]|[H E]]; rewrite E; split; lra.
Qed.

Lemma bounded_for_valid_fields (p0 p1 g0 g1 : str) (pr gr : list str)
    (pl ps gl gs : Z) :
  int p0 = Ok pl -> int p1 = Ok ps -> int g0 = Ok gl -> int g1 = Ok gs ->
  valid_fields pl ps gl gs ->
  exists v,
    evaluate_grounding (p0 :: p1 :: pr) (g0 :: g1 :: gr) = Ok v /\
    0 <= v <= 1 /\
    (pl = gl -> ps = gs -> v = 1) /\
    (pl = gl -> ps <> gs -> v < 0.8) /\
    (pl <> gl -> v <= 0.3).
Proof.
  intros P0 P1 G0 G1 [Hpl [Hgl Hseg]].
  pose proof float_overflow_bounds as [_ [B _]].
  assert (P : (2 ^ 1023 < float_overflow)%Z) by (vm_compute; reflexivity).
  destruct (Z.eq_dec pl gl) as [El|Nl].
  - destruct (Hseg El) as [Hps Hgs].
    destruct (Z.eq_dec ps gs) as [Es|Ns].
    + exists 1. split; [eapply exact_match; eassumption|].
      repeat split; try discriminate; try reflexivity; contradiction.
    + assert (M : (2 ^ gl <= 2 ^ 1023)%Z) by (apply Z.pow_le_mono_r; lia).
      destruct (@same_layer_returns p0 p1 g0 g1 pr gr pl ps gl gs
                  P0 P1 G0 G1 El Ns) as [v [E V]]; [lia | lia |].
      exists v. split; [assumption|].
      destruct (@circular_score_bound (Z.abs (ps - gs)) gl) as [C0 C1];
        [lia | lia |].
      rewrite <- V in C0, C1.
      repeat split; try lra; try contradiction; intros; lra.
  - destruct (@other_layer_returns p0 p1 g0 g1 pr gr pl ps gl gs
                P0 P1 G0 G1 Nl) as [v [E V]]; [lia|].
    exists v. split; [assumption|].
    assert (D1 : 1 <= inject_Z (Z.abs (pl - gl))).
    { change 1 with (inject_Z 1). rewrite <- Zle_Qle. lia. }
    rewrite Qquarter in V.
    set (D := inject_Z (Z.abs (pl - gl))) in *. clearbody D.
    assert (R : 0 <= v <= 0.3).
    { rewrite V.
      destruct (Q.max_spec 0 (1 - D * (1 # 4))) as [[H X]|[H X]];
        rewrite X; split; lra. }
    repeat split; try lra; try contradiction; intros; lra.
Qed.



Lemma three_elements {A : Type} (l : list A) :
  List.length l = 3%nat -> exists a b c, l = [a; b; c].
Proof.
  destruct l as [|a [|b [|c [|d l]]]]; try discriminate.
  intros _. now exists a, b, c.
Qed.

Lemma parses_or_not (s : str) :
  (exists z, int s = Ok z) \/ (exists e, int s = Raise e).
Proof. destruct (int s) as [z|e]; eauto. Qed.

(** X13.  [video_grounding] returns a score in [0, 1] whenever the layer
    and segment fields it extracts, if they are integers, are fields of the
    hierarchy (layers from 0 up, segments inside the layer when the layers
    agree); texts without tags, without content, with another number of
    fields or with fields that are not integers are covered. *)
Theorem video_grounding_bounded (predict_str ground_truth : str) :
  (forall pred_content gt_content p0 p1 p2 g0 g1 g2 pl ps gl gs,
     search_grounding predict_str = Some pred_content ->
     search_grounding ground_truth = Some gt_content ->
     map strip (split "," pred_content) = [p0; p1; p2] ->
     map strip (split "," gt_content) = [g0; g1; g2] ->
     int p0 = Ok pl -> int p1 = Ok ps -> int g0 = Ok gl -> int g1 = Ok gs ->
     valid_fields pl ps gl gs) ->
  exists v, video_grounding predict_str ground_truth = Ok v /\ 0 <= v <= 1.
Proof.
  intro Valid.
  pose proof (check_format_range predict_str) as [F0 F1].
  destruct (Qeq_bool (check_format predict_str) 0) eqn:Z0.
  { exists 0. unfold video_grounding. rewrite Z0.
    split; [reflexivity | split; discriminate]. }
  apply Qeq_bool_neq in Z0.
  assert (F : 0 < check_format predict_str).
  { apply Qle_lt_or_eq in F0 as [H|H]; [assumption|].
    exfalso. apply Z0. now symmetry. }
  destruct (search_grounding predict_str) as [pc|] eqn:Sp;
    [destruct (search_grounding ground_truth) as [gc|] eqn:Sg|].
  - destruct (Nat.eq_dec (List.length (map strip (split "," pc))) 3)
      as [Lp|Lp];
      [destruct (Nat.eq_dec (List.length (map strip (split "," gc))) 3)
         as [Lg|Lg]|].
    + apply three_elements in Lp as [p0 [p1 [p2 Pp]]].
      apply three_elements in Lg as [g0 [g1 [g2 Pg]]].
      assert (G : exists gs, evaluate_grounding [p0; p1; p2] [g0; g1; g2]
                             = Ok gs /\ 0 <= gs <= 1).
      { destruct (parses_or_not p0) as [[pl P0]|P0];
          [destruct (parses_or_not p1) as [[ps P1]|P1];
           [destruct (parses_or_not g0) as [[gl G0]|G0];
            [destruct (parses_or_not g1) as [[gs G1]|G1]|]|]|].
        - destruct (@bounded_for_valid_fields p0 p1 g0 g1 [p2] [g2]
                      pl ps gl gs P0 P1 G0 G1) as [v [E [R _]]];
            [eapply Valid; first [eassumption | reflexivity]|].
          now exists v.
        - exists 0. split; [apply unparsed_field; auto|split; discriminate].
        - exists 0. split; [apply unparsed_field; auto|split; discriminate].
        - exists 0. split; [apply unparsed_field; auto|split; discriminate].
        - exists 0. split; [apply unparsed_field; auto|split; discriminate]. }
      destruct G as [gs [E [G0 G1]]].
      destruct (@weighted_when_scored predict_str ground_truth pc gc
                  F Sp Sg p0 p1 p2 g0 g1 g2 Pp Pg gs E) as [ss [Es Ev]].
      destruct (evaluate_sampling_rate_returns p2) as [ss' [Es' [S0 S1]]].
      assert (ss' = ss) by congruence. subst ss'.
      eexists. split; [exact Ev | split; lra].
    + eexists. split; [apply (@wrong_field_count predict_str ground_truth
                                pc gc F Sp Sg); now right|].
      split; lra.
    + eexists. split; [apply (@wrong_field_count predict_str ground_truth
                                pc gc F Sp Sg); now left|].
      split; lra.
  - destruct (@no_content_score predict_str ground_truth) as [v [E V]];
      [right; assumption|].
    exists v. split; [assumption|]. rewrite V. split; lra.
  - destruct (@no_content_score predict_str ground_truth) as [v [E V]];
      [left; assumption|].
    exists v. split; [assumption|]. rewrite V. split; lra.
Qed.

Lemma video_grounding_bounded_witness :
  exists v,
    video_grounding (lit "<think>x</think><grounding>2, 3, 1</grounding>")
                    (lit "<grounding>2, 1, 0</grounding>") = Ok v /\
    0 <= v <= 1.
Proof.
  apply (@video_grounding_bounded
           (lit "<think>x</think><grounding>2, 3, 1</grounding>")
           (lit "<grounding>2, 1, 0</grounding>")).
  intros pc gc p0 p1 p2 g0 g1 g2 pl ps gl gs Sp Sg Pp Pg P0 P1 G0 G1.
  vm_compute in Sp. injection Sp as <-.
  vm_compute in Sg. injection Sg as <-.
  vm_compute in Pp. injection Pp as <- <- <-.
  vm_compute in Pg. injection Pg as <- <- <-.
  vm_compute in P0. injection P0 as <-.
  vm_compute in P1. injection P1 as <-.
  vm_compute in G0. injection G0 as <-.
  vm_compute in G1. injection G1 as <-.
  split; [lia|]. split; [lia|]. intros _. simpl. lia.
Defined.

(** ** Symmetry of the grounding score *)

Lemma two_ints_some (parts : list str) (x y : Z) :
  two_ints parts = Some (x, y) ->
  exists a b rest, parts = a :: b :: rest /\ int a = Ok x /\ int b = Ok y.
Proof.
  unfold two_ints. destruct parts as [|a [|b rest]]; try discriminate.
  destruct (int a) as [x'|] eqn:A; [|discriminate].
  destruct (int b) as [y'|] eqn:B; [|discriminate].
  intro H. injection H as <- <-. now exists a, b, rest.
Qed.

Lemma no_ints_on_the_left (pred_parts gt_parts : list str) :
  two_ints pred_parts = None ->
  evaluate_grounding pred_parts gt_parts = Ok 0.
Proof.
  unfold two_ints, evaluate_grounding.
  destruct pred_parts as [|a [|b rest]]; cbn [index nth_error bind].
  - reflexivity.
  - intros _. destruct (int a) as [x|e] eqn:A; [reflexivity|].
    apply int_raises in A. now subst e.
  - destruct (int a) as [x|e] eqn:A;
      [|intros _; apply int_raises in A; now subst e].
    destruct (int b) as [y|e] eqn:B; [discriminate|].
    intros _. apply int_raises in B. now subst e.
Qed.

Lemma no_ints_on_the_right (pred_parts gt_parts : list str) :
  two_ints gt_parts = None ->
  evaluate_grounding pred_parts gt_parts = Ok 0.
Proof.
  intro G. destruct (two_ints pred_parts) as [[pl ps]|] eqn:P;
    [|now apply no_ints_on_the_left].
  apply two_ints_some in P as [a [b [rest [-> [A B]]]]].
  unfold evaluate_grounding. cbn [index nth_error bind].
  rewrite A. cbn [bind]. rewrite B. cbn [bind].
  unfold two_ints in G.
  destruct gt_parts as [|c [|d rest']]; cbn [index nth_error bind].
  - reflexivity.
  - destruct (int c) as [x|e] eqn:C; [reflexivity|].
    apply int_raises in C. now subst e.
  - destruct (int c) as [x|e] eqn:C;
      [|apply int_raises in C; now subst e].
    destruct (int d) as [y|e] eqn:D; [discriminate|].
    apply int_raises in D. now subst e.
Qed.

(** X14.  The grounding score is symmetric: [evaluate_grounding] gives the
    same result, a score or the same exception, when prediction and ground
    truth change places, for all lists of fields. *)
Theorem evaluate_grounding_symmetric (pred_parts gt_parts : list str) :
  evaluate_grounding pred_parts gt_parts
  = evaluate_grounding gt_parts pred_parts.
Proof.
  destruct (two_ints pred_parts) as [[pl ps]|] eqn:P.
  - destruct (two_ints gt_parts) as [[gl gs]|] eqn:G.
    + apply two_ints_some in P as [p0 [p1 [pr [-> [P0 P1]]]]].
      apply two_ints_some in G as [g0 [g1 [gr [-> [G0 G1]]]]].
      unfold evaluate_grounding. cbn [index nth_error bind].
      repeat (progress (rewrite ?P0, ?P1, ?G0, ?G1; cbn [bind])).
      rewrite (Z.eqb_sym pl gl), (Z.eqb_sym ps gs).
      destruct (gl =? pl)%Z eqn:L.
      * apply Z.eqb_eq in L. subst gl.
        replace (Z.abs (ps - gs)) with (Z.abs (gs - ps)) by lia.
        reflexivity.
      * replace (Z.abs (pl - gl)) with (Z.abs (gl - pl)) by lia.
        reflexivity.
    + rewrite (@no_ints_on_the_right pred_parts gt_parts G).
      symmetry. now apply no_ints_on_the_left.
  - rewrite (@no_ints_on_the_left pred_parts gt_parts P).
    symmetry. now apply no_ints_on_the_right.
Qed.

(** ** Fields and commas *)

(** X15.  A grounding content has exactly 3 trimmed fields exactly when it
    holds exactly two commas; with content extracted from both texts and
    another number of commas in either, [video_grounding] returns
    0.2 * format_score (the extraction alone makes the format score
    positive). *)
Theorem field_count_by_commas :
  (forall content : str,
     List.length (map strip (split "," content)) = 3%nat
     <-> count "," content = 2%nat) /\
  (forall predict_str ground_truth pred_content gt_content : str,
     search_grounding predict_str = Some pred_content ->
     search_grounding ground_truth = Some gt_content ->
     count "," pred_content <> 2%nat \/ count "," gt_content <> 2%nat ->
     video_grounding predict_str ground_truth
     = Ok (0.2 * check_format predict_str)).
Proof.
  assert (A : forall content : str,
             List.length (map strip (split "," content)) = 3%nat
             <-> count "," content = 2%nat).
  { intro content. rewrite length_map, split_length. lia. }
  split; [exact A|].
  intros p g pc gc Sp Sg H.
  pose proof (grounding_found_format _ Sp) as [F0 _].
  apply (@wrong_field_count p g pc gc); try assumption; [lra|].
  destruct H as [H|H]; [left|right]; now rewrite A.
Qed.

Lemma field_count_by_commas_witness :
  video_grounding (lit "<grounding>2, 1, 3, 4</grounding>")
                  (lit "<grounding>2, 1, 0</grounding>")
  = Ok (0.2 * check_format (lit "<grounding>2, 1, 3, 4</grounding>")).
Proof.
  apply (proj2 field_count_by_commas
           (lit "<grounding>2, 1, 3, 4</grounding>")
           (lit "<grounding>2, 1, 0</grounding>")
           (lit "2, 1, 3, 4") (lit "2, 1, 0")).
  - reflexivity.
  - reflexivity.
  - left. vm_compute. discriminate.
Defined.

(** ** What the searches extract *)

(** X16.  The grounding content that [video_grounding] works on is never
    empty and never holds a [<]; it stands between [<grounding>] and
    [</grounding>] in the text, and no match of the pattern starts further
    left. *)
Theorem grounding_extraction (s found : str) :
  search_grounding s = Some found ->
  found <> [] /\ ~ In "<"%char found /\
  exists a b,
    s = a ++ grounding_open ++ found ++ grounding_close ++ b /\
    forall a' content b',
      grounding_content content ->
      s = a' ++ grounding_open ++ content ++ grounding_close ++ b' ->
      (List.length a <= List.length a')%nat.
Proof.
  intro H. pose proof (search_grounding_sound _ H) as [[Hne Hlt] _].
  split; [assumption|]. split; [assumption|].
  now apply search_grounding_leftmost.
Qed.

Lemma grounding_extraction_witness :
  lit "2, 1, 3" <> [] /\ ~ In "<"%char (lit "2, 1, 3") /\
  exists a b,
    lit "<grounding><grounding>2, 1, 3</grounding>"
    = a ++ grounding_open ++ lit "2, 1, 3" ++ grounding_close ++ b /\
    forall a' content b',
      grounding_content content ->
      lit "<grounding><grounding>2, 1, 3</grounding>"
      = a' ++ grounding_open ++ content ++ grounding_close ++ b' ->
      (List.length a <= List.length a')%nat.
Proof.
  apply (@grounding_extraction
           (lit "<grounding><grounding>2, 1, 3</grounding>") (lit "2, 1, 3")).
  reflexivity.
Defined.

(** X17.  The thinking content that [check_format] measures runs from the
    first [<think>] of the text to the first [</think>] after it. *)
Theorem thinking_extraction (s content : str) :
  search_think s = Some content ->
  exists a b,
    s = a ++ think_open ++ content ++ think_close ++ b /\
    (forall a' b', s = a' ++ think_open ++ b' ->
       (List.length a <= List.length a')%nat) /\
    (forall c' b', content ++ think_close ++ b = c' ++ think_close ++ b' ->
       (List.length content <= List.length c')%nat).
Proof.
  exact (@search_think_sound s content).
Qed.

Lemma thinking_extraction_witness :
  exists a b,
    lit "a<think>b<think>c</think>d</think>"
    = a ++ think_open ++ lit "b<think>c" ++ think_close ++ b /\
    (forall a' b', lit "a<think>b<think>c</think>d</think>"
                   = a' ++ think_open ++ b' ->
       (List.length a <= List.length a')%nat) /\
    (forall c' b', lit "b<think>c" ++ think_close ++ b
                   = c' ++ think_close ++ b' ->
       (List.length (lit "b<think>c") <= List.length c')%nat).
Proof.
  apply (@thinking_extraction (lit "a<think>b<think>c</think>d</think>")
           (lit "b<think>c")).
  reflexivity.
Defined.
